(** * Portfolio website: the magnetic button and the work-row image follower

    A shallow embedding of [js/magnetic.js] (class [MagneticButton]) and of
    [initWorkHover] in [js/main.js], with the properties the specification
    states about them; then of the controllers' life cycle
    ([initMagnetic], [destroy]) and of [initHamburgerMenu] and
    [initMarquee] in [js/main.js], with properties read off the code.

    - JavaScript numbers are an interface [Number] with two instances:
      IEEE-754 binary64 ([float], what the browser computes) and the real
      numbers ([R], the exact arithmetic the specification reasons in).
    - The DOM is a finite map from node identifiers to elements; an
      element's inline style is a finite map from property names to values.
    - [requestAnimationFrame] is a counter of queued [animate] callbacks.
    - No operation of the handlers can throw (arithmetic on numbers, reads
      of geometry and attributes, writes of style properties, class names
      and [src]), so each handler is a total function on the state. *)

From Stdlib Require Import Floats ZArith QArith Qround Reals Lra.
From Stdlib Require Lqa.
From stdpp Require Import gmap strings.

(** ** Numbers *)

Class Number (F : Type) : Type := MkNumber {
  num_add : F → F → F;
  num_sub : F → F → F;
  num_mul : F → F → F;
  num_div : F → F → F;
  num_of_Z : Z → F;        (* an integer literal: 0, 2, 40, 175, 200 *)
  num_tenth : F;           (* the literal 0.1 *)
  num_finite : F → bool    (* neither NaN nor an infinity *)
}.

Declare Scope num_scope.
Delimit Scope num_scope with num.
Infix "+" := num_add : num_scope.
Infix "-" := num_sub : num_scope.
Infix "*" := num_mul : num_scope.
Infix "/" := num_div : num_scope.

(** Exact arithmetic.  Every real is finite; the instance agrees with
    JavaScript only where no division by zero occurs. *)
#[export] Instance real_number : Number R := {|
  num_add := Rplus; num_sub := Rminus; num_mul := Rmult; num_div := Rdiv;
  num_of_Z := IZR; num_tenth := (1 / 10)%R; num_finite := λ _, true
|}.

Definition float_of_Z (z : Z) : float :=
  match z with
  | Z0 => 0%float
  | Zpos _ => PrimFloat.of_uint63 (Uint63.of_Z z)
  | Zneg p => (- PrimFloat.of_uint63 (Uint63.of_Z (Zpos p)))%float
  end.

(** IEEE-754 binary64, round to nearest even: the JavaScript number type.
    [0x1.999999999999ap-4] is the double that the literal [0.1] denotes. *)
#[export] Instance float_number : Number float := {|
  num_add := PrimFloat.add; num_sub := PrimFloat.sub;
  num_mul := PrimFloat.mul; num_div := PrimFloat.div;
  num_of_Z := float_of_Z; num_tenth := 0x1.999999999999ap-4%float;
  num_finite := PrimFloat.is_finite
|}.

(** ** Inline styles and the DOM *)

(** The timing function of the two transitions, [cubic-bezier(x1, y1, x2, y2)]. *)
Inductive timing : Type :=
  | cubic_bezier (x1 y1 x2 y2 : Q).

Section Dom.
Context {F : Type} `{Number F}.

(** A length as the scripts write it: the text of a number followed by
    [px], or the unitless [0] of the literal ['translate(0, 0)']. *)
Inductive css_length : Type :=
  | px (v : F)
  | zero_length.

(** The values of inline style properties: the two shapes the scripts
    write to [transform] and [transition], the lengths they write to
    [left] and [top], and any other text. *)
Inductive css_value : Type :=
  | Translate (x y : css_length)                       (* translate(x, y) *)
  | Transition (property : string) (seconds : Q) (curve : timing)
  | Length (l : css_length)
  | Seconds (seconds : Q)                              (* a time, 0.3s *)
  | Timing (curve : timing)                            (* a timing function *)
  | Raw (text : string).

(** A number prints as [NaN], [Infinity] or [-Infinity] when it is not
    finite, and then the text before [px] is not a CSS number. *)
Definition length_valid (l : css_length) : bool :=
  match l with
  | px v => num_finite v
  | zero_length => true
  end.

Definition css_valid (v : css_value) : bool :=
  match v with
  | Translate x y => length_valid x && length_valid y
  | Length l => length_valid l
  | Transition _ _ _ | Seconds _ | Timing _ | Raw _ => true
  end.

(** The longhand properties of the shorthand [transition]. *)
Definition transition_longhands : list string :=
  ["transition-property"; "transition-duration";
   "transition-timing-function"; "transition-delay"; "transition-behavior"].

(** The longhand declarations a write of [v] to [p] stands for.  Of the
    properties the scripts write only [transition] is a shorthand: the
    write sets every longhand, the delay and the behavior, which the
    scripts leave out, to their initial values. *)
Definition expand (p : string) (v : css_value) : list (string * css_value) :=
  match v with
  | Transition property seconds curve =>
      if decide (p = "transition") then
        [("transition-property", Raw property);
         ("transition-duration", Seconds seconds);
         ("transition-timing-function", Timing curve);
         ("transition-delay", Seconds 0);
         ("transition-behavior", Raw "normal")]
      else []
  | _ => []
  end.

(** [el.style.prop = value]: the CSSOM setter drops a value that does
    not parse and leaves the declaration as it was; a value that parses
    replaces the property and, for a shorthand, each of its longhands; it
    never throws. *)
Definition set_property (p : string) (v : css_value)
    (st : gmap string css_value) : gmap string css_value :=
  if css_valid v then
    <[p := v]> (foldr (λ d, <[d.1 := d.2]>) st (expand p v))
  else st.

Definition length_px (l : css_length) : F :=
  match l with
  | px v => v
  | zero_length => num_of_Z 0
  end.

(** The offsets a transform value translates by. *)
Definition translation_of (v : css_value) : option (F * F) :=
  match v with
  | Translate x y => Some (length_px x, length_px y)
  | _ => None
  end.

Record DOMRect : Type := mkRect {
  left : F; top : F; width : F; height : F
}.

Record Element : Type := mkElement {
  rect : DOMRect;                         (* getBoundingClientRect() *)
  style : gmap string css_value;          (* el.style *)
  classList : gset string;
  attributes : gmap string string         (* getAttribute / src *)
}.

Record MouseEvent : Type := mkMouseEvent { clientX : F; clientY : F }.

Definition getBoundingClientRect (e : Element) : DOMRect := rect e.

Definition with_style (e : Element) (st : gmap string css_value) : Element :=
  {| rect := rect e; style := st;
     classList := classList e; attributes := attributes e |}.

(** The inline style property [p] of node [id]. *)
Definition style_of (doc : gmap nat Element) (id : nat) (p : string)
    : option css_value :=
  doc !! id ≫= λ e, style e !! p.

(** ** js/magnetic.js *)

Record MagneticButton : Type := mkMagneticButton {
  el : nat;             (* the node the controller is bound to *)
  strength : F;
  triggerArea : F
}.

(** [constructor(el)] *)
Definition new_MagneticButton (el : nat) : MagneticButton :=
  {| el := el; strength := num_of_Z 40; triggerArea := num_of_Z 200 |}.

Definition ease : timing := cubic_bezier (7 # 10)%Q 0%Q (3 # 10)%Q 1%Q.

(** The arithmetic of [onMouseMove]: [(moveX, moveY)]. *)
Definition move_offset (this : MagneticButton) (rect : DOMRect)
    (e : MouseEvent) : F * F :=
  let centerX := (left rect + width rect / num_of_Z 2)%num in
  let centerY := (top rect + height rect / num_of_Z 2)%num in
  let distX := (clientX e - centerX)%num in
  let distY := (clientY e - centerY)%num in
  let moveX := (distX / width rect * strength this)%num in
  let moveY := (distY / height rect * strength this)%num in
  (moveX, moveY).

(** [onMouseMove(e)].  A controller is only constructed on a node of the
    document, so the branch [None] is not reached; it keeps the handlers
    total. *)
Definition onMouseMove (this : MagneticButton) (e : MouseEvent)
    (doc : gmap nat Element) : gmap nat Element :=
  match doc !! el this with
  | None => doc
  | Some elem =>
      let rect := getBoundingClientRect elem in
      let '(moveX, moveY) := move_offset this rect e in
      let st1 := set_property "transform"
                   (Translate (px moveX) (px moveY)) (style elem) in
      let st2 := set_property "transition"
                   (Transition "transform" (3 # 10)%Q ease) st1 in
      <[el this := with_style elem st2]> doc
  end.

(** [onMouseLeave()] *)
Definition onMouseLeave (this : MagneticButton)
    (doc : gmap nat Element) : gmap nat Element :=
  match doc !! el this with
  | None => doc
  | Some elem =>
      let st1 := set_property "transform"
                   (Translate zero_length zero_length) (style elem) in
      let st2 := set_property "transition"
                   (Transition "transform" (7 # 10)%Q ease) st1 in
      <[el this := with_style elem st2]> doc
  end.

(** The inline style [onMouseMove] leaves on its element: both writes,
    in the order of the source. *)
Definition move_style (this : MagneticButton) (e : MouseEvent)
    (elem : Element) : gmap string css_value :=
  set_property "transition" (Transition "transform" (3 # 10)%Q ease)
    (set_property "transform"
       (Translate (px (move_offset this (rect elem) e).1)
                  (px (move_offset this (rect elem) e).2))
       (style elem)).

(** The inline style [onMouseLeave] leaves on its element. *)
Definition leave_style (elem : Element) : gmap string css_value :=
  set_property "transition" (Transition "transform" (7 # 10)%Q ease)
    (set_property "transform" (Translate zero_length zero_length)
       (style elem)).

(** The translation in force on node [id]. *)
Definition applied_translation (doc : gmap nat Element) (id : nat)
    : option (F * F) :=
  style_of doc id "transform" ≫= translation_of.

Definition pointer (e : MouseEvent) : F * F := (clientX e, clientY e).

(** ** js/main.js, [initWorkHover] *)

(** The closure variables of [initWorkHover], the two nodes it writes
    to, and the queue of [animate] callbacks handed to
    [requestAnimationFrame] and not yet run. *)
Record HoverState : Type := mkHover {
  mouseX : F; mouseY : F;
  currentX : F; currentY : F;
  animating : bool;
  hoverContainer : Element;
  hoverImg : Element;
  frames : nat
}.

(** [function animate()] *)
Definition animate (s : HoverState) : HoverState :=
  if negb (animating s) then s
  else
    let currentX' := (currentX s + (mouseX s - currentX s) * num_tenth)%num in
    let currentY' := (currentY s + (mouseY s - currentY s) * num_tenth)%num in
    let st1 := set_property "left" (Length (px currentX'))
                 (style (hoverContainer s)) in
    let st2 := set_property "top" (Length (px currentY')) st1 in
    {| mouseX := mouseX s; mouseY := mouseY s;
       currentX := currentX'; currentY := currentY';
       animating := animating s;
       hoverContainer := with_style (hoverContainer s) st2;
       hoverImg := hoverImg s;
       frames := S (frames s) |}.

(** [row.getAttribute('data-img')] followed by the test [if (imgSrc)]:
    a missing attribute gives [null], and the empty string is falsy too. *)
Definition data_img (row : Element) : option string :=
  match attributes row !! "data-img" with
  | Some s => if decide (s = EmptyString) then None else Some s
  | None => None
  end.

(** The [mouseenter] listener of a row. *)
Definition mouseenter (row : Element) (s : HoverState) : HoverState :=
  match data_img row with
  | Some imgSrc =>
      let img := hoverImg s in
      let box := hoverContainer s in
      animate
        {| mouseX := mouseX s; mouseY := mouseY s;
           currentX := currentX s; currentY := currentY s;
           animating := true;
           hoverContainer :=
             {| rect := rect box; style := style box;
                classList := {["active"]} ∪ classList box;
                attributes := attributes box |};
           hoverImg :=
             {| rect := rect img; style := style img;
                classList := classList img;
                attributes := <["src" := imgSrc]> (attributes img) |};
           frames := frames s |}
  | None => s
  end.

(** The [mousemove] listener of a row. *)
Definition mousemove (e : MouseEvent) (s : HoverState) : HoverState :=
  {| mouseX := (clientX e - num_of_Z 175)%num;
     mouseY := (clientY e - num_of_Z 200)%num;
     currentX := currentX s; currentY := currentY s;
     animating := animating s;
     hoverContainer := hoverContainer s; hoverImg := hoverImg s;
     frames := frames s |}.

(** The [mouseleave] listener of a row. *)
Definition mouseleave (s : HoverState) : HoverState :=
  let box := hoverContainer s in
  {| mouseX := mouseX s; mouseY := mouseY s;
     currentX := currentX s; currentY := currentY s;
     animating := false;
     hoverContainer :=
       {| rect := rect box; style := style box;
          classList := classList box ∖ {["active"]};
          attributes := attributes box |};
     hoverImg := hoverImg s;
     frames := frames s |}.

(** [k] queued callbacks run one after the other. *)
Definition run_callbacks (k : nat) (s : HoverState) : HoverState :=
  Nat.iter k animate s.

Definition clear_frames (s : HoverState) : HoverState :=
  {| mouseX := mouseX s; mouseY := mouseY s;
     currentX := currentX s; currentY := currentY s;
     animating := animating s;
     hoverContainer := hoverContainer s; hoverImg := hoverImg s;
     frames := 0 |}.

(** One rendered frame: the browser takes the callbacks queued so far,
    empties the queue and runs them; a callback queued meanwhile waits
    for the next frame. *)
Definition frame (s : HoverState) : HoverState :=
  run_callbacks (frames s) (clear_frames s).

(** The body of [initWorkHover] up to the listeners: nothing is wired
    when a node is missing or there is no row. *)
Definition initWorkHover (container img : option Element)
    (rows : list Element) : option HoverState :=
  match container, img, rows with
  | Some box, Some im, _ :: _ =>
      Some {| mouseX := num_of_Z 0; mouseY := num_of_Z 0;
              currentX := num_of_Z 0; currentY := num_of_Z 0;
              animating := false;
              hoverContainer := box; hoverImg := im;
              frames := 0 |}
  | _, _, _ => None
  end.

Inductive Event : Type :=
  | MouseEnter (row : Element)
  | MouseMove (e : MouseEvent)
  | MouseLeave
  | Frame.

Definition step (s : HoverState) (ev : Event) : HoverState :=
  match ev with
  | MouseEnter row => mouseenter row s
  | MouseMove e => mousemove e s
  | MouseLeave => mouseleave s
  | Frame => frame s
  end.

(** Events are dispatched one at a time, each running to completion. *)
Definition run (evs : list Event) (s : HoverState) : HoverState :=
  foldl step s evs.

(** [n] ticks of the per-frame update. *)
Definition ticks (n : nat) (s : HoverState) : HoverState :=
  Nat.iter n animate s.

Definition position (s : HoverState) : F * F := (currentX s, currentY s).
Definition target (s : HoverState) : F * F := (mouseX s, mouseY s).

(** An event that starts the loop: entering a row that carries an image. *)
Definition activates (ev : Event) : bool :=
  match ev with
  | MouseEnter row => bool_decide (is_Some (data_img row))
  | _ => false
  end.

(** After the deactivation of [s] and the events [evs], the follower
    has not moved, and the callbacks that were queued when the loop was
    deactivated change nothing and queue nothing when they run. *)
Definition updates_stopped (s : HoverState) (evs : list Event) : Prop :=
  let off := mouseleave s in
  let s' := run evs off in
  position s' = position off
  ∧ style (hoverContainer s') = style (hoverContainer off)
  ∧ run_callbacks (frames off) (clear_frames s') = clear_frames s'.

End Dom.

Arguments css_length F : clear implicits.
Arguments css_value F : clear implicits.
Arguments DOMRect F : clear implicits.
Arguments Element F : clear implicits.
Arguments MouseEvent F : clear implicits.
Arguments MagneticButton F : clear implicits.
Arguments HoverState F : clear implicits.
Arguments Event F : clear implicits.

(** ** Distances, in exact arithmetic *)

Definition magnitude (v : R * R) : R := sqrt (v.1 * v.1 + v.2 * v.2)%R.

Definition distance (p q : R * R) : R :=
  magnitude (p.1 - q.1, p.2 - q.2)%R.

Definition rect_center (r : DOMRect R) : R * R :=
  (left r + width r / 2, top r + height r / 2)%R.

Definition strictly_inside (r : DOMRect R) (e : MouseEvent R) : Prop :=
  (left r < clientX e < left r + width r)%R
  ∧ (top r < clientY e < top r + height r)%R.

(** The distance of the follower from its target. *)
Definition lag (s : HoverState R) : R := distance (position s) (target s).

Definition is_move {F : Type} (ev : Event F) : bool :=
  match ev with
  | MouseMove _ => true
  | _ => false
  end.

(** ** js/magnetic.js: construction, listeners, teardown *)

(** Which handler a bound function calls. *)
Inductive method : Type :=
  | mouseMove
  | mouseLeave.

Section Listeners.
Context {F : Type} `{Number F}.

(** [this.onMouseMove.bind(this)], [this.onMouseLeave.bind(this)]: a
    function object, told apart from every other by its identity. *)
Record BoundFunction : Type := mkBound {
  bound_this : MagneticButton F;
  bound_method : method
}.

(** The document, the listener list of every node (event type and
    function identity, in registration order) and the function objects
    created so far; a function's identity is its index. *)
Record Page : Type := mkPage {
  document : gmap nat (Element F);
  listeners : gmap nat (list (string * nat));
  functions : list BoundFunction
}.

(** A [MagneticButton] object with its field [bound]. *)
Record Controller : Type := mkController {
  this_button : MagneticButton F;
  bound_mouseMove : nat;
  bound_mouseLeave : nat
}.

Definition node_listeners (node : nat) (pg : Page) : list (string * nat) :=
  default [] (listeners pg !! node).

(** [node.addEventListener(type, fn)]: a listener already on the list is
    not added a second time. *)
Definition addEventListener (node : nat) (type : string) (fn : nat)
    (ls : gmap nat (list (string * nat))) : gmap nat (list (string * nat)) :=
  let cur := default [] (ls !! node) in
  if decide ((type, fn) ∈ cur) then ls else <[node := cur ++ [(type, fn)]]> ls.

(** [node.removeEventListener(type, fn)] *)
Definition removeEventListener (node : nat) (type : string) (fn : nat)
    (ls : gmap nat (list (string * nat))) : gmap nat (list (string * nat)) :=
  match ls !! node with
  | Some cur => <[node := filter (λ l, l ≠ (type, fn)) cur]> ls
  | None => ls
  end.

(** [new MagneticButton(el)]: the constructor binds the two handlers and
    [init()] registers them. *)
Definition new_controller (el : nat) (pg : Page) : Controller * Page :=
  let this := new_MagneticButton el in
  let fn_move := length (functions pg) in
  let fn_leave := S fn_move in
  let ls1 := addEventListener el "mousemove" fn_move (listeners pg) in
  let ls2 := addEventListener el "mouseleave" fn_leave ls1 in
  ({| this_button := this;
      bound_mouseMove := fn_move; bound_mouseLeave := fn_leave |},
   {| document := document pg;
      listeners := ls2;
      functions := functions pg
                     ++ [mkBound this mouseMove; mkBound this mouseLeave] |}).

(** [destroy()] *)
Definition destroy (c : Controller) (pg : Page) : Page :=
  let node := el (this_button c) in
  let ls1 := removeEventListener node "mousemove" (bound_mouseMove c)
               (listeners pg) in
  let ls2 := removeEventListener node "mouseleave" (bound_mouseLeave c) ls1 in
  {| document := document pg; listeners := ls2; functions := functions pg |}.

(** [document.querySelectorAll('.' + c)]: the nodes carrying the class. *)
Definition querySelectorAll_class (c : string) (doc : gmap nat (Element F))
    : list nat :=
  (map_to_list (filter (λ kv, c ∈ classList kv.2) doc)).*1.

(** [initMagnetic()] *)
Definition initMagnetic (pg : Page) : Page :=
  foldl (λ pg el, (new_controller el pg).2) pg
    (querySelectorAll_class "magnetic" (document pg)).

Definition call (f : BoundFunction) (e : MouseEvent F)
    (doc : gmap nat (Element F)) : gmap nat (Element F) :=
  match bound_method f with
  | mouseMove => onMouseMove (bound_this f) e doc
  | mouseLeave => onMouseLeave (bound_this f) doc
  end.

(** One entry of a listener list, for an event of the given type. *)
Definition run_listener (fns : list BoundFunction) (type : string)
    (e : MouseEvent F) (doc : gmap nat (Element F)) (l : string * nat)
    : gmap nat (Element F) :=
  if decide (l.1 = type) then
    match fns !! l.2 with
    | Some f => call f e doc
    | None => doc
    end
  else doc.

(** An event of the given type at [node]: the listeners of that type
    registered on the node itself run in registration order.  The
    listeners of the node's ancestors, which a bubbling event reaches
    afterwards, are not part of this function. *)
Definition dispatchEvent (node : nat) (type : string) (e : MouseEvent F)
    (pg : Page) : gmap nat (Element F) :=
  foldl (run_listener (functions pg) type e) (document pg)
    (node_listeners node pg).

(** The event type each handler is registered for in [init()]. *)
Definition event_type (m : method) : string :=
  match m with
  | mouseMove => "mousemove"
  | mouseLeave => "mouseleave"
  end.

(** Every registered listener is a function that exists. *)
Definition listeners_bound (pg : Page) : Prop :=
  ∀ (node : nat) (l : string * nat),
    l ∈ node_listeners node pg → l.2 < length (functions pg).

End Listeners.

Arguments BoundFunction F : clear implicits.
Arguments Page F : clear implicits.
Arguments Controller F : clear implicits.

(** ** js/main.js, [initHamburgerMenu] *)

(** [classList.toggle(c)] *)
Definition classList_toggle (c : string) (cl : gset string) : gset string :=
  if decide (c ∈ cl) then cl ∖ {[c]} else {[c]} ∪ cl.

(** The class lists of the navigation panel and of its overlay, and the
    targets of the [gsap.from] calls made so far. *)
Record MenuState : Type := mkMenu {
  nav_classes : gset string;
  overlay_classes : gset string;
  tweens : list string
}.

(** [function toggleMenu()] *)
Definition toggleMenu (m : MenuState) : MenuState :=
  let isActive := bool_decide ("active" ∈ nav_classes m) in
  {| nav_classes := classList_toggle "active" (nav_classes m);
     overlay_classes := classList_toggle "active" (overlay_classes m);
     tweens := if isActive then tweens m
               else tweens m ++ [".fixed-nav-links a"; ".fixed-nav-socials a"] |}.

(** The click listener of a link of the panel. *)
Definition closeMenu (m : MenuState) : MenuState :=
  {| nav_classes := nav_classes m ∖ {["active"]};
     overlay_classes := overlay_classes m ∖ {["active"]};
     tweens := tweens m |}.

(** A click that reaches the listener of the button, of the overlay, or
    of a link of the panel. *)
Inductive Click : Type :=
  | ClickHamburger
  | ClickOverlay
  | ClickNavLink.

Definition click (m : MenuState) (c : Click) : MenuState :=
  match c with
  | ClickHamburger | ClickOverlay => toggleMenu m
  | ClickNavLink => closeMenu m
  end.

Definition clicks (cs : list Click) (m : MenuState) : MenuState :=
  foldl click m cs.

Definition is_toggle (c : Click) : bool :=
  match c with
  | ClickHamburger | ClickOverlay => true
  | ClickNavLink => false
  end.

(** The guard of [initHamburgerMenu]: no listener is attached unless the
    button, the panel and the overlay all exist. *)
Definition initHamburgerMenu (btn nav overlay : option (gset string))
    : option MenuState :=
  match btn, nav, overlay with
  | Some _, Some n, Some o =>
      Some {| nav_classes := n; overlay_classes := o; tweens := [] |}
  | _, _, _ => None
  end.

Definition menu_open (m : MenuState) : Prop := "active" ∈ nav_classes m.

Definition menu_in_sync (m : MenuState) : Prop :=
  "active" ∈ nav_classes m ↔ "active" ∈ overlay_classes m.

(** ** js/main.js, [initMarquee] *)

(** The number of rounds of [for (let i = 0; i < spansPerSet; i++)] with
    [spansPerSet = spans.length / 3]: the quotient is not truncated, so a
    length that is not a multiple of three rounds up. *)
Definition spansPerSet_rounds (length : nat) : nat := (length + 2) / 3.

(** The loop summing [spans[i].offsetWidth]; [offsetWidth] is an integer.
    The index stays below the length, the default is never used. *)
Definition singleSetWidth (offsetWidths : list Z) : Z :=
  foldl (λ acc i, acc + default 0 (offsetWidths !! i))%Z 0%Z
    (seq 0 (spansPerSet_rounds (length offsetWidths))).

(** Truncation towards zero. *)
Definition Qtrunc (q : Q) : Z :=
  if Qle_bool 0 q then Qfloor q else Qceiling q.

(** [a % b] in exact arithmetic, for [b] other than zero: the remainder
    of the truncated division, with the sign of [a]. *)
Definition js_rem (a b : Q) : Q :=
  (a - b * inject_Z (Qtrunc (a / b)))%Q.

(** The [x] modifier of the marquee tween. *)
Definition marquee_x (singleSetWidth x : Q) : Q :=
  let md := js_rem x singleSetWidth in
  if Qlt_le_dec 0 md then (md - singleSetWidth)%Q else md.

(** * Properties of the magnetic button *)

Section MagneticFacts.
Context {F : Type} `{Number F}.
Implicit Types (this : MagneticButton F) (e : MouseEvent F)
  (doc : gmap nat (Element F)) (elem : Element F).

Lemma expand_names p (v : css_value F) q :
  q ∈ (expand p v).*1 → p = "transition" ∧ q ∈ transition_longhands.
Proof.
  unfold expand. destruct v; try (intros Hin; by apply elem_of_nil in Hin).
  destruct (decide (p = "transition")) as [->|_];
    [done | intros Hin; by apply elem_of_nil in Hin].
Qed.

Lemma lookup_foldr_insert_other (ds : list (string * css_value F)) q
    (st : gmap string (css_value F)) :
  q ∉ ds.*1 → foldr (λ d, <[d.1 := d.2]>) st ds !! q = st !! q.
Proof.
  induction ds as [|d ds IH]; intros Hq; [done|]. cbn in *.
  apply not_elem_of_cons in Hq as [Hne Hq].
  rewrite lookup_insert_ne by done. by apply IH.
Qed.

(** A write leaves every property alone but the one written and, for the
    shorthand [transition], its longhands. *)
Lemma set_property_frame p q (v : css_value F) st :
  p ≠ q → ¬ (p = "transition" ∧ q ∈ transition_longhands) →
  set_property p v st !! q = st !! q.
Proof.
  intros Hpq Hq. unfold set_property. destruct (css_valid v); [|done].
  rewrite lookup_insert_ne by done. apply lookup_foldr_insert_other.
  intros Hin. by apply Hq, (expand_names p v).
Qed.

Lemma set_property_other p q (v : css_value F) st :
  p ≠ q → bool_decide (q ∈ transition_longhands) = false →
  set_property p v st !! q = st !! q.
Proof.
  intros Hpq Hq. apply set_property_frame; [done|].
  intros [_ Hin]. by apply bool_decide_eq_false in Hq.
Qed.

Lemma set_property_valid p (v : css_value F) st :
  css_valid v = true → set_property p v st !! p = Some v.
Proof. intros Hv. unfold set_property. rewrite Hv. apply lookup_insert_eq. Qed.

Lemma set_property_invalid p (v : css_value F) st :
  css_valid v = false → set_property p v st = st.
Proof. intros Hv. unfold set_property. by rewrite Hv. Qed.

Lemma onMouseMove_lookup this e doc elem :
  doc !! el this = Some elem →
  onMouseMove this e doc !! el this
    = Some (with_style elem (move_style this e elem)).
Proof.
  intros Hel. unfold onMouseMove, move_style, getBoundingClientRect.
  rewrite Hel. destruct (move_offset this (rect elem) e) as [mx my].
  cbn. apply lookup_insert_eq.
Qed.

Lemma onMouseLeave_lookup this doc elem :
  doc !! el this = Some elem →
  onMouseLeave this doc !! el this = Some (with_style elem (leave_style elem)).
Proof.
  intros Hel. unfold onMouseLeave, leave_style. rewrite Hel.
  apply lookup_insert_eq.
Qed.



Lemma style_of_move this e doc elem p :
  doc !! el this = Some elem →
  style_of (onMouseMove this e doc) (el this) p = move_style this e elem !! p.
Proof.
  intros Hel. unfold style_of. by rewrite (onMouseMove_lookup _ _ _ _ Hel).
Qed.

Lemma style_of_leave this doc elem p :
  doc !! el this = Some elem →
  style_of (onMouseLeave this doc) (el this) p = leave_style elem !! p.
Proof.
  intros Hel. unfold style_of. by rewrite (onMouseLeave_lookup _ _ _ Hel).
Qed.

Lemma move_style_transform this e elem :
  num_finite (move_offset this (rect elem) e).1 = true →
  num_finite (move_offset this (rect elem) e).2 = true →
  move_style this e elem !! "transform"
    = Some (Translate (px (move_offset this (rect elem) e).1)
                      (px (move_offset this (rect elem) e).2)).
Proof.
  intros Hx Hy. unfold move_style.
  rewrite set_property_other by done.
  apply set_property_valid. unfold css_valid, length_valid. by rewrite Hx, Hy.
Qed.

Lemma move_style_transition this e elem :
  move_style this e elem !! "transition"
    = Some (Transition "transform" (3 # 10)%Q ease).
Proof. unfold move_style. by apply set_property_valid. Qed.

Lemma leave_style_transform elem :
  leave_style elem !! "transform" = Some (Translate zero_length zero_length).
Proof.
  unfold leave_style. rewrite set_property_other by done.
  by apply set_property_valid.
Qed.

Lemma leave_style_transition elem :
  leave_style elem !! "transition"
    = Some (Transition "transform" (7 # 10)%Q ease).
Proof. unfold leave_style. by apply set_property_valid. Qed.

End MagneticFacts.

(** C1: on every pointer-move event the controller applies, per axis, the
    translation (pointer coordinate - centre coordinate) / dimension * 40,
    whenever that offset is a finite number (a non-finite one is not a CSS
    length); for a 200x200 element centred at (100,100) and the pointer at
    (150,100) the transform written is translate(10px, 0px), both in
    binary64 and in exact arithmetic. *)
Theorem pointer_move_translation :
  (∀ (F : Type) (N : Number F) (id : nat) (e : MouseEvent F)
     (doc : gmap nat (Element F)) (elem : Element F),
     doc !! id = Some elem →
     let r := rect elem in
     let x := ((clientX e - (left r + width r / num_of_Z 2))
               / width r * num_of_Z 40)%num in
     let y := ((clientY e - (top r + height r / num_of_Z 2))
               / height r * num_of_Z 40)%num in
     num_finite x = true → num_finite y = true →
     let doc' := onMouseMove (new_MagneticButton id) e doc in
     style_of doc' id "transform" = Some (Translate (px x) (px y))
     ∧ applied_translation doc' id = Some (x, y))
  ∧ (∀ (id : nat) (doc : gmap nat (Element float)) (elem : Element float),
       doc !! id = Some elem →
       rect elem = mkRect 0%float 0%float 200%float 200%float →
       style_of (onMouseMove (new_MagneticButton id)
                   (mkMouseEvent 150%float 100%float) doc) id "transform"
         = Some (Translate (px 10%float) (px 0%float)))
  ∧ (∀ (id : nat) (doc : gmap nat (Element R)) (elem : Element R),
       doc !! id = Some elem →
       rect elem = mkRect 0%R 0%R 200%R 200%R →
       style_of (onMouseMove (new_MagneticButton id)
                   (mkMouseEvent 150%R 100%R) doc) id "transform"
         = Some (Translate (px 10%R) (px 0%R))).
Proof.
  split; [|split].
  - intros F N id e doc elem Hel r x y Hx Hy doc'.
    assert (style_of doc' id "transform" = Some (Translate (px x) (px y))) as Hst.
    { unfold doc'.
      rewrite (style_of_move (new_MagneticButton id) e doc elem "transform" Hel).
      by apply (move_style_transform (new_MagneticButton id) e elem). }
    split; [done|]. unfold applied_translation. by rewrite Hst.
  - intros id doc elem Hel Hr.
    rewrite (style_of_move (new_MagneticButton id) _ doc elem "transform" Hel).
    unfold move_style. rewrite set_property_other by done.
    rewrite Hr. by apply set_property_valid.
  - intros id doc elem Hel Hr.
    rewrite (style_of_move (new_MagneticButton id) _ doc elem "transform" Hel).
    unfold move_style. rewrite set_property_other by done.
    rewrite Hr. rewrite set_property_valid by done.
    do 2 f_equal; f_equal; unfold move_offset; cbn; lra.
Qed.

Lemma pointer_move_translation_witness :
  style_of (onMouseMove (new_MagneticButton 1)
              (mkMouseEvent 150%float 100%float)
              {[ 1 := mkElement (mkRect 0%float 0%float 200%float 200%float)
                        ∅ ∅ ∅ ]}) 1 "transform"
    = Some (Translate (px 10%float) (px 0%float)).
Proof.
  refine (proj1 (proj2 pointer_move_translation) 1 _ _ _ _).
  - apply lookup_singleton_eq.
  - reflexivity.
Defined.

(** C4: on pointer-leave the element's translation becomes exactly (0,0)
    whatever it was before, also right after any pointer-move; the release
    transition lasts 0.7s and the engage transition 0.3s, both on the
    transform property with the same cubic-bezier curve, so every release
    is slower than every engage. *)
Theorem pointer_leave_resets :
  ∀ (F : Type) (N : Number F) (this : MagneticButton F) (e : MouseEvent F)
    (doc : gmap nat (Element F)) (elem : Element F),
    doc !! el this = Some elem →
    let engaged := onMouseMove this e doc in
    let released := onMouseLeave this engaged in
    style_of (onMouseLeave this doc) (el this) "transform"
      = Some (Translate zero_length zero_length)
    ∧ applied_translation (onMouseLeave this doc) (el this)
      = Some (num_of_Z 0, num_of_Z 0)
    ∧ applied_translation released (el this) = Some (num_of_Z 0, num_of_Z 0)
    ∧ style_of engaged (el this) "transition"
      = Some (Transition "transform" (3 # 10)%Q ease)
    ∧ style_of released (el this) "transition"
      = Some (Transition "transform" (7 # 10)%Q ease)
    ∧ style_of (onMouseLeave this doc) (el this) "transition"
      = Some (Transition "transform" (7 # 10)%Q ease)
    ∧ (3 # 10 < 7 # 10)%Q.
Proof.
  intros F N this e doc elem Hel engaged released.
  pose proof (onMouseMove_lookup this e doc elem Hel) as Hmoved.
  fold engaged in Hmoved.
  unfold applied_translation, released.
  rewrite !(style_of_leave this doc elem _ Hel).
  rewrite !(style_of_leave this engaged _ _ Hmoved).
  unfold engaged. rewrite (style_of_move this e doc elem _ Hel).
  rewrite !leave_style_transform, !leave_style_transition, move_style_transition.
  repeat split; reflexivity.
Qed.

Lemma pointer_leave_resets_witness :
  applied_translation
    (onMouseLeave (new_MagneticButton 1)
       (onMouseMove (new_MagneticButton 1) (mkMouseEvent 150%float 100%float)
          {[ 1 := mkElement (mkRect 0%float 0%float 200%float 200%float)
                    ∅ ∅ ∅ ]})) 1
    = Some (0%float, 0%float).
Proof.
  refine (proj1 (proj2 (proj2
    (pointer_leave_resets float _ (new_MagneticButton 1)
       (mkMouseEvent 150%float 100%float)
       {[ 1 := mkElement (mkRect 0%float 0%float 200%float 200%float) ∅ ∅ ∅ ]}
       _ _)))).
  apply lookup_singleton_eq.
Defined.





(** ** A zero-size bounding rectangle, in binary64 *)

Lemma not_finite_of_spec (x : float) :
  Prim2SF x = S754_nan ∨ (∃ s, Prim2SF x = S754_infinity s) →
  PrimFloat.is_finite x = false.
Proof.
  intros Hx. unfold PrimFloat.is_finite, PrimFloat.is_nan, PrimFloat.is_infinity.
  rewrite !FloatAxioms.eqb_spec, abs_spec.
  destruct Hx as [-> | [[] ->]]; reflexivity.
Qed.

(** Dividing by a zero dimension gives NaN or an infinity, and the
    multiplication by the strength keeps it so. *)
Lemma scaled_by_zero_not_finite (d : float) :
  PrimFloat.is_finite (d / 0 * float_of_Z 40)%float = false.
Proof.
  apply not_finite_of_spec.
  change (float_of_Z 40) with 40%float.
  rewrite mul_spec, div_spec.
  change (Prim2SF 0) with (S754_zero false).
  change (Prim2SF 40) with (S754_finite false 5629499534213120 (-47)).
  destruct (Prim2SF d) as [s | s | | s m ex]; cbn; eauto.
Qed.

(** C7, as the code has it: for an element whose bounding rectangle has
    zero width and height, the pointer-move handler computes offsets that
    are not finite numbers, so the transform it writes is not valid CSS
    and the element's transform stays as it was; the handler still sets
    the transition to the 0.3s engage profile. *)
Theorem zero_rect_pointer_move :
  ∀ (id : nat) (e : MouseEvent float) (doc : gmap nat (Element float))
    (elem : Element float),
    doc !! id = Some elem →
    width (rect elem) = 0%float → height (rect elem) = 0%float →
    let this := new_MagneticButton id in
    let doc' := onMouseMove this e doc in
    num_finite (move_offset this (rect elem) e).1 = false
    ∧ num_finite (move_offset this (rect elem) e).2 = false
    ∧ style_of doc' id "transform" = style_of doc id "transform"
    ∧ style_of doc' id "transition"
      = Some (Transition "transform" (3 # 10)%Q ease).
Proof.
  intros id e doc elem Hel Hw Hh this doc'.
  assert (num_finite (move_offset this (rect elem) e).1 = false) as Hx.
  { unfold move_offset. cbn. rewrite Hw. apply scaled_by_zero_not_finite. }
  assert (num_finite (move_offset this (rect elem) e).2 = false) as Hy.
  { unfold move_offset. cbn. rewrite Hh. apply scaled_by_zero_not_finite. }
  split; [done|]. split; [done|].
  unfold doc'. rewrite !(style_of_move this e doc elem _ Hel).
  split; [|apply move_style_transition].
  unfold move_style. rewrite set_property_other by done.
  rewrite set_property_invalid.
  - unfold style_of. by rewrite Hel.
  - unfold css_valid, length_valid. by rewrite Hx.
Qed.

Lemma zero_rect_pointer_move_witness :
  style_of
    (onMouseMove (new_MagneticButton 1) (mkMouseEvent 150%float 100%float)
       {[ 1 := mkElement (mkRect 0%float 0%float 0%float 0%float) ∅ ∅ ∅ ]})
    1 "transform" = None.
Proof.
  refine (eq_trans (proj1 (proj2 (proj2
    (zero_rect_pointer_move 1 (mkMouseEvent 150%float 100%float)
       {[ 1 := mkElement (mkRect 0%float 0%float 0%float 0%float) ∅ ∅ ∅ ]}
       _ _ _ _)))) _).
  - apply lookup_singleton_eq.
  - reflexivity.
  - reflexivity.
  - reflexivity.
Defined.

(** C7, as stated, fails: on a detached element (all-zero rectangle, no
    inline style) the handler is not a no-op, it changes the element. *)
Lemma zero_rect_pointer_move_not_noop :
  onMouseMove (new_MagneticButton 1) (mkMouseEvent 150%float 100%float)
    {[ 1 := mkElement (mkRect 0%float 0%float 0%float 0%float) ∅ ∅ ∅ ]}
  ≠ ({[ 1 := mkElement (mkRect 0%float 0%float 0%float 0%float) ∅ ∅ ∅ ]}
       : gmap nat (Element float)).
Proof.
  intros Heq.
  assert (style_of
            (onMouseMove (new_MagneticButton 1)
               (mkMouseEvent 150%float 100%float)
               {[ 1 := mkElement (mkRect 0%float 0%float 0%float 0%float)
                         ∅ ∅ ∅ ]}) 1 "transition"
          = Some (Transition "transform" (3 # 10)%Q ease)) as Hset.
  { rewrite (style_of_move (new_MagneticButton 1) _ _
               (mkElement (mkRect 0%float 0%float 0%float 0%float) ∅ ∅ ∅));
      [apply move_style_transition | apply lookup_singleton_eq]. }
  rewrite Heq in Hset. discriminate Hset.
Qed.

(** ** Magnitudes, in exact arithmetic *)

Lemma magnitude_nonneg (v : R * R) : (0 <= magnitude v)%R.
Proof. apply sqrt_pos. Qed.

Lemma magnitude_scale (k a b : R) :
  (0 <= k)%R → magnitude (k * a, k * b)%R = (k * magnitude (a, b))%R.
Proof.
  intros Hk. unfold magnitude. cbn.
  replace (k * a * (k * a) + k * b * (k * b))%R
    with ((k * k) * (a * a + b * b))%R by ring.
  rewrite sqrt_mult by nra. by rewrite sqrt_square.
Qed.

Lemma magnitude_zero_iff (a b : R) :
  magnitude (a, b) = 0%R ↔ a = 0%R ∧ b = 0%R.
Proof.
  unfold magnitude. cbn. split.
  - intros Hm. apply sqrt_eq_0 in Hm; [|nra]. split; nra.
  - intros [-> ->]. replace (0 * 0 + 0 * 0)%R with 0%R by ring. apply sqrt_0.
Qed.

Lemma magnitude_le_bound (a b m : R) :
  (0 <= m)%R → (a * a + b * b <= m * m)%R → (magnitude (a, b) <= m)%R.
Proof.
  intros Hm Hab. unfold magnitude. cbn.
  rewrite <- (sqrt_square m) by done. apply sqrt_le_1; nra.
Qed.

(** An offset of less than half the dimension scales to less than half
    the strength. *)
Lemma normalized_bound (d w : R) :
  (0 < w)%R → (- (w / 2) < d < w / 2)%R → (-20 < d / w * 40 < 20)%R.
Proof.
  intros Hw [Hlo Hhi]. unfold Rdiv.
  assert (0 < / w)%R as Hi by by apply Rinv_0_lt_compat.
  assert (w * / w = 1)%R as Hwi by (apply Rinv_r; lra).
  split; nra.
Qed.

Lemma applied_translation_move (id : nat) (e : MouseEvent R)
    (doc : gmap nat (Element R)) (elem : Element R) :
  doc !! id = Some elem →
  applied_translation (onMouseMove (new_MagneticButton id) e doc) id
    = Some (move_offset (new_MagneticButton id) (rect elem) e).
Proof.
  intros Hel. unfold applied_translation.
  rewrite (style_of_move (new_MagneticButton id) e doc elem _ Hel).
  rewrite move_style_transform by done.
  destruct (move_offset _ _ _) as [mx my]. reflexivity.
Qed.

(** C3, as the code has it: for pointers strictly inside the element's
    bounds the translation has magnitude zero at the geometric centre and
    never exceeds 40; along each axis the offset grows with the pointer's
    distance from the centre on that axis; and for a square element
    (width = height) the magnitude is strictly increasing in the pointer's
    distance from the centre. *)
Theorem translation_magnitude :
  ∀ (id : nat) (doc : gmap nat (Element R)) (elem : Element R)
    (e1 e2 : MouseEvent R),
    doc !! id = Some elem →
    let r := rect elem in
    let c := rect_center r in
    strictly_inside r e1 → strictly_inside r e2 →
    ∃ v1 v2 : R * R,
      applied_translation (onMouseMove (new_MagneticButton id) e1 doc) id
        = Some v1
      ∧ applied_translation (onMouseMove (new_MagneticButton id) e2 doc) id
        = Some v2
      ∧ (magnitude v1 <= 40)%R
      ∧ (pointer e1 = c → magnitude v1 = 0%R)
      ∧ (Rabs (clientX e1 - c.1) <= Rabs (clientX e2 - c.1) →
         Rabs v1.1 <= Rabs v2.1)%R
      ∧ (Rabs (clientY e1 - c.2) <= Rabs (clientY e2 - c.2) →
         Rabs v1.2 <= Rabs v2.2)%R
      ∧ (width r = height r →
         distance (pointer e1) c < distance (pointer e2) c →
         magnitude v1 < magnitude v2)%R.
Proof.
  intros id doc elem e1 e2 Hel r c [Hx1 Hy1] [Hx2 Hy2].
  exists (move_offset (new_MagneticButton id) r e1),
         (move_offset (new_MagneticButton id) r e2).
  split; [by apply applied_translation_move|].
  split; [by apply applied_translation_move|].
  assert (0 < width r)%R as Hw by lra.
  assert (0 < height r)%R as Hh by lra.
  assert (0 < / width r)%R as Hiw by by apply Rinv_0_lt_compat.
  assert (0 < / height r)%R as Hih by by apply Rinv_0_lt_compat.
  unfold c, rect_center, pointer, distance, move_offset. cbn.
  set (dx1 := (clientX e1 - (left r + width r / 2))%R).
  set (dy1 := (clientY e1 - (top r + height r / 2))%R).
  set (dx2 := (clientX e2 - (left r + width r / 2))%R).
  set (dy2 := (clientY e2 - (top r + height r / 2))%R).
  split; [|split; [|split; [|split]]].
  - pose proof (normalized_bound dx1 (width r) Hw) as Bx.
    pose proof (normalized_bound dy1 (height r) Hh) as By.
    apply magnitude_le_bound; [lra|].
    assert (-20 < dx1 / width r * 40 < 20)%R by (apply Bx; unfold dx1; lra).
    assert (-20 < dy1 / height r * 40 < 20)%R by (apply By; unfold dy1; lra).
    nra.
  - intros Hc. injection Hc as Hcx Hcy.
    apply magnitude_zero_iff.
    assert (dx1 = 0)%R as -> by (unfold dx1; lra).
    assert (dy1 = 0)%R as -> by (unfold dy1; lra).
    unfold Rdiv. split; ring.
  - intros Hd. unfold Rdiv. rewrite !Rabs_mult.
    rewrite !(Rabs_pos_eq (/ width r)) by lra.
    rewrite !(Rabs_pos_eq 40) by lra.
    apply Rmult_le_compat_r; [lra|]. apply Rmult_le_compat_r; lra.
  - intros Hd. unfold Rdiv. rewrite !Rabs_mult.
    rewrite !(Rabs_pos_eq (/ height r)) by lra.
    rewrite !(Rabs_pos_eq 40) by lra.
    apply Rmult_le_compat_r; [lra|]. apply Rmult_le_compat_r; lra.
  - intros Hsq Hd. rewrite <- Hsq.
    replace (dx1 / width r * 40)%R with (40 * / width r * dx1)%R
      by (unfold Rdiv; ring).
    replace (dy1 / width r * 40)%R with (40 * / width r * dy1)%R
      by (unfold Rdiv; ring).
    replace (dx2 / width r * 40)%R with (40 * / width r * dx2)%R
      by (unfold Rdiv; ring).
    replace (dy2 / width r * 40)%R with (40 * / width r * dy2)%R
      by (unfold Rdiv; ring).
    rewrite !magnitude_scale by nra.
    apply Rmult_lt_compat_l; [nra | exact Hd].
Qed.

Lemma translation_magnitude_witness :
  ∃ v1 v2 : R * R,
    applied_translation
      (onMouseMove (new_MagneticButton 1) (mkMouseEvent 150%R 100%R)
         {[ 1 := mkElement (mkRect 0%R 0%R 200%R 200%R) ∅ ∅ ∅ ]}) 1 = Some v1
    ∧ applied_translation
        (onMouseMove (new_MagneticButton 1) (mkMouseEvent 100%R 100%R)
           {[ 1 := mkElement (mkRect 0%R 0%R 200%R 200%R) ∅ ∅ ∅ ]}) 1 = Some v2
    ∧ (magnitude v1 <= 40)%R.
Proof.
  destruct (translation_magnitude 1
              {[ 1 := mkElement (mkRect 0%R 0%R 200%R 200%R) ∅ ∅ ∅ ]}
              (mkElement (mkRect 0%R 0%R 200%R 200%R) ∅ ∅ ∅)
              (mkMouseEvent 150%R 100%R) (mkMouseEvent 100%R 100%R))
    as (v1 & v2 & H1 & H2 & Hm & _).
  - apply lookup_singleton_eq.
  - unfold strictly_inside; cbn; lra.
  - unfold strictly_inside; cbn; lra.
  - exists v1, v2. auto.
Defined.

(** C3, as stated, fails: in a 400x100 element the pointer at (300,50) is
    100px from the centre and is translated by 10px, while the pointer at
    (200,90) is only 40px from the centre and is translated by 16px. *)
Lemma translation_not_monotone_in_distance :
  let r := mkRect 0%R 0%R 400%R 100%R in
  let doc : gmap nat (Element R) := {[ 1 := mkElement r ∅ ∅ ∅ ]} in
  let far := mkMouseEvent 300%R 50%R in
  let near := mkMouseEvent 200%R 90%R in
  strictly_inside r far ∧ strictly_inside r near
  ∧ (distance (pointer near) (rect_center r)
     < distance (pointer far) (rect_center r))%R
  ∧ applied_translation (onMouseMove (new_MagneticButton 1) far doc) 1
    = Some (10, 0)%R
  ∧ applied_translation (onMouseMove (new_MagneticButton 1) near doc) 1
    = Some (0, 16)%R
  ∧ (magnitude (10, 0) < magnitude (0, 16))%R.
Proof.
  intros r doc far near.
  split; [unfold strictly_inside; cbn; lra|].
  split; [unfold strictly_inside; cbn; lra|].
  split; [unfold distance, magnitude; cbn; apply sqrt_lt_1_alt; lra|].
  split; [|split].
  - rewrite (applied_translation_move 1 far doc (mkElement r ∅ ∅ ∅))
      by apply lookup_singleton_eq.
    unfold move_offset. cbn. do 2 f_equal; lra.
  - rewrite (applied_translation_move 1 near doc (mkElement r ∅ ∅ ∅))
      by apply lookup_singleton_eq.
    unfold move_offset. cbn. do 2 f_equal; lra.
  - unfold magnitude. cbn. apply sqrt_lt_1_alt. lra.
Qed.

(** * Properties of the image follower *)

Section HoverFacts.
Context {F : Type} `{Number F}.
Implicit Types (s : HoverState F) (ev : Event F) (evs : list (Event F))
  (row : Element F).

Lemma animate_inactive s : animating s = false → animate s = s.
Proof. intros Ha. unfold animate. by rewrite Ha. Qed.

Lemma animate_active s :
  animating s = true →
  currentX (animate s)
    = (currentX s + (mouseX s - currentX s) * num_tenth)%num
  ∧ currentY (animate s)
    = (currentY s + (mouseY s - currentY s) * num_tenth)%num
  ∧ target (animate s) = target s
  ∧ animating (animate s) = true
  ∧ frames (animate s) = S (frames s).
Proof. intros Ha. unfold animate, target. rewrite Ha. by cbn. Qed.

Lemma run_callbacks_inactive k s :
  animating s = false → run_callbacks k s = s.
Proof.
  intros Ha. unfold run_callbacks.
  induction k as [|k IH]; [done|].
  rewrite Nat.iter_succ, IH. by apply animate_inactive.
Qed.

Lemma ticks_active n s :
  animating s = true →
  animating (ticks n s) = true ∧ target (ticks n s) = target s.
Proof.
  intros Ha. unfold ticks. induction n as [|n [IHa IHt]]; [done|].
  rewrite Nat.iter_succ.
  destruct (animate_active _ IHa) as (_ & _ & Ht & Ha' & _).
  split; [done | by rewrite Ht].
Qed.

Lemma activates_false_enter row :
  activates (MouseEnter row) = false → data_img row = None.
Proof.
  cbn. intros Hb. apply bool_decide_eq_false in Hb.
  destruct (data_img row); [|done]. exfalso. apply Hb. by eexists.
Qed.

(** What an event leaves alone while the loop is inactive. *)
Lemma step_idle s ev :
  animating s = false → activates ev = false →
  animating (step s ev) = false
  ∧ position (step s ev) = position s
  ∧ style (hoverContainer (step s ev)) = style (hoverContainer s)
  ∧ hoverImg (step s ev) = hoverImg s
  ∧ frames (step s ev) ≤ frames s
  ∧ (ev = Frame → frames (step s ev) = 0).
Proof.
  intros Ha Hev. destruct ev as [row | e | | ]; cbn [step].
  - apply activates_false_enter in Hev. unfold mouseenter. rewrite Hev.
    by repeat split.
  - by repeat split.
  - by repeat split.
  - unfold frame. rewrite run_callbacks_inactive by done.
    repeat split; cbn; (done || lia).
Qed.

Lemma run_idle evs s :
  animating s = false →
  Forall (λ ev, activates ev = false) evs →
  animating (run evs s) = false
  ∧ position (run evs s) = position s
  ∧ style (hoverContainer (run evs s)) = style (hoverContainer s)
  ∧ hoverImg (run evs s) = hoverImg s
  ∧ frames (run evs s) ≤ frames s
  ∧ (Frame ∈ evs → frames (run evs s) = 0).
Proof.
  intros Ha Hevs. revert s Ha.
  induction Hevs as [|ev evs Hev _ IH]; intros s Ha.
  - repeat split; try done. intros Hin. by apply elem_of_nil in Hin.
  - destruct (step_idle s ev Ha Hev) as (Ha1 & Hp1 & Hs1 & Hi1 & Hf1 & Hz1).
    destruct (IH _ Ha1) as (Ha2 & Hp2 & Hs2 & Hi2 & Hf2 & Hz2).
    change (run (ev :: evs) s) with (run evs (step s ev)).
    repeat split; try congruence; try lia.
    intros Hin. apply elem_of_cons in Hin as [<- | Hin].
    + specialize (Hz1 eq_refl). lia.
    + by apply Hz2.
Qed.

Lemma mouseleave_fields s :
  animating (mouseleave s) = false
  ∧ position (mouseleave s) = position s
  ∧ target (mouseleave s) = target s
  ∧ style (hoverContainer (mouseleave s)) = style (hoverContainer s)
  ∧ frames (mouseleave s) = frames s.
Proof. by repeat split. Qed.

End HoverFacts.

(** C6, as the code has it: after the loop is deactivated by a
    pointer-leave, and for as long as no row carrying an image is entered
    again, the follower's position and the container's inline style never
    change, whatever frames, pointer moves and leaves follow; every queued
    callback that runs observes the inactive flag, mutates nothing and
    queues nothing, so the queue never grows and is empty from the first
    frame on. *)
Theorem deactivation_stops_updates :
  ∀ (F : Type) (N : Number F) (s : HoverState F) (evs : list (Event F)),
    Forall (λ ev, activates ev = false) evs →
    let s' := run evs (mouseleave s) in
    updates_stopped s evs
    ∧ animating s' = false
    ∧ position s' = position s
    ∧ style (hoverContainer s') = style (hoverContainer s)
    ∧ (∀ k : nat, run_callbacks k s' = s')
    ∧ frames s' ≤ frames s
    ∧ (Frame ∈ evs → frames s' = 0).
Proof.
  intros F N s evs Hevs s'.
  destruct (mouseleave_fields s) as (Ha & Hp & _ & Hs & Hf).
  destruct (run_idle evs (mouseleave s) Ha Hevs)
    as (Ha' & Hp' & Hs' & _ & Hf' & Hz').
  fold s' in Ha', Hp', Hs', Hf', Hz'.
  split; [|split; [|split; [|split; [|split; [|split]]]]].
  - unfold updates_stopped. fold s'. split; [done|]. split; [done|].
    by apply run_callbacks_inactive.
  - done.
  - congruence.
  - congruence.
  - intros k. by apply run_callbacks_inactive.
  - lia.
  - done.
Qed.

Lemma deactivation_stops_updates_witness :
  let box : Element float := mkElement (mkRect 0 0 0 0)%float ∅ ∅ ∅ in
  let s := mkHover 300%float 200%float 30%float 20%float true box box 1 in
  position (run [Frame; MouseMove (mkMouseEvent 500 500)%float; Frame]
              (mouseleave s))
    = (30%float, 20%float).
Proof.
  intros box s.
  refine (proj1 (proj2 (proj2
    (deactivation_stops_updates float _ s
       [Frame; MouseMove (mkMouseEvent 500 500)%float; Frame] _)))).
  repeat constructor.
Defined.

(** C6, as stated, fails when a row is entered again before the queued
    callback has run (leaving one row for the next dispatches both events
    within one frame): the callback queued before the deactivation finds
    the flag set again, moves the follower and queues itself, next to the
    callback of the new activation, so two updates run per frame. *)
Lemma reentry_revives_stale_callback :
  let box : Element float := mkElement (mkRect 0 0 0 0)%float ∅ ∅ ∅ in
  let row : Element float :=
    mkElement (mkRect 0 0 0 0)%float ∅ ∅ {[ "data-img" := "a.jpg" ]} in
  let s0 := mkHover 0%float 0%float 0%float 0%float false box box 0 in
  let s := run [MouseEnter row; MouseMove (mkMouseEvent 475 400)%float; Frame]
             s0 in
  let off := mouseleave s in
  let s' := run [MouseEnter row] off in
  initWorkHover (Some box) (Some box) [row] = Some s0
  ∧ animating off = false ∧ frames off = 1
  ∧ position off = (30%float, 20%float)
  ∧ position s' = (57%float, 38%float)
  ∧ frames s' = 2
  ∧ frames (run_callbacks (frames off) (clear_frames s')) = 1
  ∧ frames (frame s') = 2
  ∧ ¬ updates_stopped s [MouseEnter row].
Proof.
  intros box row s0 s off s'.
  repeat (split; [vm_compute; reflexivity|]).
  intros (_ & _ & Hcb). apply (f_equal frames) in Hcb.
  vm_compute in Hcb. discriminate Hcb.
Qed.

(** C8: entering a row that has no data-img attribute changes nothing: the
    preview image keeps its source, the container is not shown, the loop
    is not started; the listener returns normally (it is a total function
    of the state). *)
Theorem mouseenter_without_image :
  ∀ (F : Type) (N : Number F) (row : Element F) (s : HoverState F),
    attributes row !! "data-img" = None →
    mouseenter row s = s
    ∧ attributes (hoverImg (mouseenter row s)) !! "src"
      = attributes (hoverImg s) !! "src"
    ∧ ∀ evs : list (Event F),
        run (MouseEnter row :: evs) s = run evs s.
Proof.
  intros F N row s Hattr.
  assert (mouseenter row s = s) as Heq.
  { unfold mouseenter, data_img. by rewrite Hattr. }
  split; [done|]. split; [by rewrite Heq|].
  intros evs. unfold run. cbn. by rewrite Heq.
Qed.

Lemma mouseenter_without_image_witness :
  let box : Element float := mkElement (mkRect 0 0 0 0)%float ∅ ∅ ∅ in
  let s := mkHover 0%float 0%float 0%float 0%float false box box 0 in
  mouseenter box s = s.
Proof.
  intros box s.
  refine (proj1 (mouseenter_without_image float _ box s _)).
  reflexivity.
Defined.

(** C10: the follower's position is set to (0,0) once, by the setup:
    with the container, the image and at least one row present, the setup
    yields the follower's state, inactive and at (0,0), and whatever state
    the setup yields is at (0,0); a pointer-leave keeps the position, and
    so does everything that happens while the loop is inactive; when a row
    carrying an image is entered again the first update interpolates from
    the position where the follower stopped, towards the current
    target. *)
Theorem position_survives_reactivation :
  ∀ (F : Type) (N : Number F),
    (∀ (box img row : Element F) (rows : list (Element F)),
       ∃ s0 : HoverState F,
         initWorkHover (Some box) (Some img) (row :: rows) = Some s0
         ∧ position s0 = (num_of_Z 0, num_of_Z 0)
         ∧ animating s0 = false
         ∧ hoverContainer s0 = box ∧ hoverImg s0 = img)
    ∧ (∀ (box img : option (Element F)) (rows : list (Element F))
         (s0 : HoverState F),
         initWorkHover box img rows = Some s0 →
         position s0 = (num_of_Z 0, num_of_Z 0))
    ∧ (∀ s : HoverState F, position (mouseleave s) = position s)
    ∧ (∀ (s : HoverState F) (evs : list (Event F)) (row : Element F),
         Forall (λ ev, activates ev = false) evs →
         is_Some (data_img row) →
         let idle := run evs (mouseleave s) in
         position idle = position s
         ∧ position (mouseenter row idle)
           = ((currentX s + (mouseX idle - currentX s) * num_tenth)%num,
              (currentY s + (mouseY idle - currentY s) * num_tenth)%num)).
Proof.
  intros F N. split; [|split; [|split]].
  - intros box img row rows. eexists. split; [reflexivity|]. by repeat split.
  - intros box img rows s0 Hinit. unfold initWorkHover in Hinit.
    destruct box as [box|], img as [img|], rows as [|row rows];
      try discriminate Hinit.
    by injection Hinit as <-.
  - done.
  - intros s evs row Hevs [src Hsrc] idle.
    destruct (mouseleave_fields s) as (Ha & Hp & _).
    destruct (run_idle evs (mouseleave s) Ha Hevs) as (_ & Hp' & _).
    fold idle in Hp'.
    assert (position idle = position s) as Hpos by congruence.
    split; [done|].
    injection Hpos as Hx Hy.
    unfold mouseenter. rewrite Hsrc. unfold animate, position. cbn.
    by rewrite Hx, Hy.
Qed.

Lemma position_survives_reactivation_witness :
  let box : Element float := mkElement (mkRect 0 0 0 0)%float ∅ ∅ ∅ in
  let row : Element float :=
    mkElement (mkRect 0 0 0 0)%float ∅ ∅ {[ "data-img" := "a.jpg" ]} in
  let s := mkHover 300%float 200%float 30%float 20%float true box box 1 in
  position (mouseenter row (run [Frame] (mouseleave s)))
    = (57%float, 38%float).
Proof.
  intros box row s.
  refine (eq_trans (proj2 (proj2 (proj2 (proj2
    (position_survives_reactivation float _))) s [Frame] row _ _)) _).
  - repeat constructor.
  - by eexists.
  - reflexivity.
Defined.

(** ** The follower's lag, in exact arithmetic *)

Lemma ticks_succ {F : Type} `{Number F} (n : nat) (s : HoverState F) :
  ticks (S n) s = animate (ticks n s).
Proof. unfold ticks. apply Nat.iter_succ. Qed.

Lemma lag_zero_iff (s : HoverState R) : lag s = 0%R ↔ position s = target s.
Proof.
  unfold lag, distance, position, target. cbn.
  rewrite magnitude_zero_iff. split.
  - intros [Hx Hy]. f_equal; lra.
  - intros Heq. injection Heq as Hx Hy. lra.
Qed.

(** While the loop is active with one callback queued, each rendered
    frame is one tick. *)
Lemma animate_clear_frames {F : Type} `{Number F} (s : HoverState F) :
  clear_frames (animate s) = clear_frames (animate (clear_frames s)).
Proof. unfold animate. cbn. by destruct (animating s). Qed.

Lemma frames_are_ticks {F : Type} `{Number F} (n : nat) (s : HoverState F) :
  animating s = true → frames s = 1 →
  clear_frames (run (replicate n Frame) s) = clear_frames (ticks n s)
  ∧ animating (run (replicate n Frame) s) = true
  ∧ frames (run (replicate n Frame) s) = 1.
Proof.
  intros Ha Hf. induction n as [|n (IHc & IHa & IHf)]; [done|].
  rewrite replicate_S_end. unfold run in *. rewrite foldl_app. cbn [foldl step].
  set (t := foldl step s (replicate n Frame)) in *.
  unfold frame. rewrite IHf. unfold run_callbacks. cbn [Nat.iter nat_rect].
  assert (animating (clear_frames t) = true) as Hat by done.
  destruct (animate_active _ Hat) as (_ & _ & _ & Ha' & Hf').
  split; [|done].
  rewrite ticks_succ, (animate_clear_frames (ticks n s)).
  by rewrite <- IHc, <- animate_clear_frames.
Qed.

(** One tick multiplies the lag by 1 - 0.1. *)
Lemma lag_animate (s : HoverState R) :
  animating s = true → lag (animate s) = ((1 - 1 / 10) * lag s)%R.
Proof.
  intros Ha. destruct (animate_active s Ha) as (Hx & Hy & Ht & _).
  unfold lag, distance. rewrite Ht. unfold position, target.
  rewrite Hx, Hy. cbn.
  rewrite <- magnitude_scale by lra. f_equal. f_equal; lra.
Qed.

Lemma lag_ticks (n : nat) (s : HoverState R) :
  animating s = true → lag (ticks n s) = ((1 - 1 / 10) ^ n * lag s)%R.
Proof.
  intros Ha. induction n as [|n IH].
  - cbn. lra.
  - rewrite ticks_succ, lag_animate by by apply ticks_active.
    rewrite IH. cbn. ring.
Qed.

(** C2: with a fixed target and exact arithmetic, every tick on which the
    follower is not on the target strictly decreases its distance to the
    target; after n ticks the distance is at most (1 - 0.1)^n times the
    initial one; and a follower that starts off the target is never
    exactly on it after finitely many ticks.  A tick is one run of
    [animate] while the loop is active; with one callback queued, n
    rendered frames are n ticks. *)
Theorem follower_converges :
  ∀ s : HoverState R,
    animating s = true →
    (∀ n : nat, frames s = 1 →
       position (run (replicate n Frame) s) = position (ticks n s))
    ∧ (∀ n : nat, target (ticks n s) = target s)
    ∧ (∀ n : nat, position (ticks n s) ≠ target s →
         (lag (ticks (S n) s) < lag (ticks n s))%R)
    ∧ (∀ n : nat, (lag (ticks n s) <= (1 - 1 / 10) ^ n * lag s)%R)
    ∧ (position s ≠ target s →
       ∀ n : nat, position (ticks n s) ≠ target s).
Proof.
  intros s Ha.
  assert (∀ n, target (ticks n s) = target s) as Ht
    by (intros n; by apply ticks_active).
  assert (∀ n, 0 < (1 - 1 / 10) ^ n)%R as Hpow
    by (intros n; apply pow_lt; lra).
  split; [|split; [done|split; [|split]]].
  - intros n Hf. destruct (frames_are_ticks n s Ha Hf) as (Hc & _).
    apply (f_equal position) in Hc. exact Hc.
  - intros n Hne.
    rewrite ticks_succ, lag_animate by by apply ticks_active.
    assert (lag (ticks n s) ≠ 0%R) as Hlag
      by (rewrite lag_zero_iff, Ht; done).
    pose proof (magnitude_nonneg
      ((position (ticks n s)).1 - (target (ticks n s)).1,
       (position (ticks n s)).2 - (target (ticks n s)).2)%R) as Hpos.
    fold (distance (position (ticks n s)) (target (ticks n s))) in Hpos.
    fold (lag (ticks n s)) in Hpos. lra.
  - intros n. rewrite lag_ticks by done. lra.
  - intros Hne n Heq. rewrite <- (Ht n) in Heq.
    apply lag_zero_iff in Heq. rewrite lag_ticks in Heq by done.
    assert (lag s ≠ 0%R) as Hlag by by rewrite lag_zero_iff.
    specialize (Hpow n). nra.
Qed.

Lemma follower_converges_witness :
  let box : Element R := mkElement (mkRect 0 0 0 0)%R ∅ ∅ ∅ in
  let s := mkHover 300%R 200%R 0%R 0%R true box box 1 in
  (lag (ticks 2 s) <= (1 - 1 / 10) ^ 2 * lag s)%R.
Proof.
  intros box s.
  refine (proj1 (proj2 (proj2 (proj2 (follower_converges s _)))) 2).
  reflexivity.
Defined.

(** C5: with smoothing factor 0.1, from (0,0) and with the fixed target
    (300,200), the follower is at (30,20) after one tick and at (57,38)
    after two: exactly so in exact arithmetic, and also in binary64, where
    no rounding error shows at these values; the same positions are
    reached through the listeners, by two frames after the pointer has
    moved to (475,400) on an entered row. *)
Theorem follower_two_ticks :
  (∀ s : HoverState R,
     animating s = true → target s = (300, 200)%R → position s = (0, 0)%R →
     position (ticks 1 s) = (30, 20)%R ∧ position (ticks 2 s) = (57, 38)%R)
  ∧ (∀ s : HoverState float,
       animating s = true →
       target s = (300, 200)%float → position s = (0, 0)%float →
       position (ticks 1 s) = (30, 20)%float
       ∧ position (ticks 2 s) = (57, 38)%float)
  ∧ (∀ (box img row : Element float) (src : string),
       data_img row = Some src →
       let s0 := mkHover 0%float 0%float 0%float 0%float false box img 0 in
       let moved := run [MouseEnter row;
                         MouseMove (mkMouseEvent 475 400)%float] s0 in
       target moved = (300, 200)%float
       ∧ position (run [Frame] moved) = (30, 20)%float
       ∧ position (run [Frame; Frame] moved) = (57, 38)%float).
Proof.
  split; [|split].
  - intros s Ha Ht Hp.
    injection Ht as Hmx Hmy. injection Hp as Hcx Hcy.
    destruct (animate_active s Ha) as (Hx1 & Hy1 & Ht1 & Ha1 & _).
    destruct (animate_active _ Ha1) as (Hx2 & Hy2 & _).
    injection Ht1 as Hmx1 Hmy1.
    change (ticks 1 s) with (animate s).
    change (ticks 2 s) with (animate (animate s)).
    unfold position. rewrite Hx2, Hy2, Hmx1, Hmy1, Hx1, Hy1.
    rewrite Hmx, Hmy, Hcx, Hcy. cbn. split; f_equal; lra.
  - intros s Ha Ht Hp.
    injection Ht as Hmx Hmy. injection Hp as Hcx Hcy.
    destruct (animate_active s Ha) as (Hx1 & Hy1 & Ht1 & Ha1 & _).
    destruct (animate_active _ Ha1) as (Hx2 & Hy2 & _).
    injection Ht1 as Hmx1 Hmy1.
    change (ticks 1 s) with (animate s).
    change (ticks 2 s) with (animate (animate s)).
    unfold position. rewrite Hx2, Hy2, Hmx1, Hmy1, Hx1, Hy1.
    rewrite Hmx, Hmy, Hcx, Hcy. split; reflexivity.
  - intros box img row src Hsrc s0 moved.
    unfold moved, run, s0. cbn [foldl step]. unfold mouseenter. rewrite Hsrc.
    split; [reflexivity|]. split; reflexivity.
Qed.

Lemma follower_two_ticks_witness :
  let box : Element float := mkElement (mkRect 0 0 0 0)%float ∅ ∅ ∅ in
  let s := mkHover 300%float 200%float 0%float 0%float true box box 1 in
  position (ticks 2 s) = (57, 38)%float.
Proof.
  intros box s.
  refine (proj2 (proj1 (proj2 follower_two_ticks) s _ _ _)); reflexivity.
Defined.

(** * Further properties of the image follower *)

Section HoverMore.
Context {F : Type} `{Number F}.
Implicit Types (s : HoverState F) (ev : Event F) (evs : list (Event F))
  (row : Element F).

Lemma animate_keeps s :
  target (animate s) = target s
  ∧ animating (animate s) = animating s
  ∧ classList (hoverContainer (animate s)) = classList (hoverContainer s)
  ∧ hoverImg (animate s) = hoverImg s.
Proof.
  unfold animate, target.
  destruct (animating s) eqn:Ha; cbn; rewrite ?Ha; by repeat split.
Qed.

Lemma run_callbacks_keeps k s :
  target (run_callbacks k s) = target s
  ∧ animating (run_callbacks k s) = animating s
  ∧ classList (hoverContainer (run_callbacks k s))
    = classList (hoverContainer s)
  ∧ hoverImg (run_callbacks k s) = hoverImg s.
Proof.
  unfold run_callbacks. induction k as [|k (IHt & IHa & IHc & IHi)]; [done|].
  rewrite Nat.iter_succ.
  destruct (animate_keeps (Nat.iter k animate s)) as (Ht & Ha & Hc & Hi).
  repeat split; congruence.
Qed.

Lemma run_snoc evs ev s : run (evs ++ [ev]) s = step (run evs s) ev.
Proof. unfold run. by rewrite foldl_app. Qed.

Lemma run_app evs1 evs2 s : run (evs1 ++ evs2) s = run evs2 (run evs1 s).
Proof. unfold run. by rewrite foldl_app. Qed.

Lemma run_callbacks_frames k s :
  animating s = true → frames (run_callbacks k s) = k + frames s.
Proof.
  intros Ha. unfold run_callbacks. induction k as [|k IH]; [done|].
  rewrite Nat.iter_succ.
  destruct (run_callbacks_keeps k s) as (_ & Ha' & _). rewrite Ha in Ha'.
  destruct (animate_active _ Ha') as (_ & _ & _ & _ & Hf).
  unfold run_callbacks in Hf. rewrite Hf, IH. lia.
Qed.

Lemma clear_frames_ticks n s :
  clear_frames (ticks n (clear_frames s)) = clear_frames (ticks n s).
Proof.
  induction n as [|n IH]; [done|].
  rewrite !ticks_succ.
  rewrite (animate_clear_frames (ticks n (clear_frames s))), IH.
  by rewrite <- animate_clear_frames.
Qed.

End HoverMore.

(** What a rendered frame does while the loop is active. *)
Lemma frame_active {F : Type} `{Number F} (s : HoverState F) :
  animating s = true →
  frames (frame s) = frames s
  ∧ position (frame s) = position (ticks (frames s) s)
  ∧ animating (frame s) = true.
Proof.
  intros Ha. unfold frame.
  assert (animating (clear_frames s) = true) as Hac by done.
  split; [|split].
  - rewrite run_callbacks_frames by done. cbn. lia.
  - change (run_callbacks (frames s) (clear_frames s))
      with (ticks (frames s) (clear_frames s)).
    pose proof (clear_frames_ticks (frames s) s) as Hc.
    apply (f_equal position) in Hc. exact Hc.
  - destruct (run_callbacks_keeps (frames s) (clear_frames s)) as (_ & Ha' & _).
    by rewrite Ha'.
Qed.

(** X1: the callbacks queued by successive activations pile up.  While
    the loop is active a rendered frame runs every queued callback, so it
    performs as many ticks as there are callbacks, and leaves as many
    queued again.  Every pointer-enter on a row carrying an image,
    whether the loop was active or not, sets the flag, moves the follower
    by one tick at once and queues one more callback on top of those
    still queued. *)
Theorem active_frame_runs_every_callback :
  ∀ (F : Type) (N : Number F),
    (∀ s : HoverState F,
       animating s = true →
       frames (frame s) = frames s
       ∧ position (frame s) = position (ticks (frames s) s)
       ∧ animating (frame s) = true)
    ∧ (∀ (s : HoverState F) (row : Element F),
         is_Some (data_img row) →
         animating (mouseenter row s) = true
         ∧ frames (mouseenter row s) = S (frames s)
         ∧ position (mouseenter row s)
           = ((currentX s + (mouseX s - currentX s) * num_tenth)%num,
              (currentY s + (mouseY s - currentY s) * num_tenth)%num)).
Proof.
  intros F N. split.
  - intros s Ha. by apply frame_active.
  - intros s row [src Hsrc]. unfold mouseenter. rewrite Hsrc.
    by unfold animate, position.
Qed.

Lemma active_frame_runs_every_callback_witness :
  let box : Element float := mkElement (mkRect 0 0 0 0)%float ∅ ∅ ∅ in
  let row : Element float :=
    mkElement (mkRect 0 0 0 0)%float ∅ ∅ {[ "data-img" := "a.jpg" ]} in
  let idle := mkHover 300%float 200%float 0%float 0%float false box box 1 in
  frames (mouseenter row idle) = 2
  ∧ position (mouseenter row idle) = (30, 20)%float
  ∧ frames (frame (mouseenter row idle)) = 2.
Proof.
  intros box row idle.
  destruct (active_frame_runs_every_callback float _) as [Hframe Henter].
  destruct (Henter idle row) as (Ha & Hf & Hp); [by eexists|].
  destruct (Hframe (mouseenter row idle) Ha) as (Hfr & _).
  split; [exact Hf|]. split; [exact Hp|]. by rewrite Hfr.
Defined.

Section HoverInvariants.
Context {F : Type} `{Number F}.
Implicit Types (s : HoverState F) (ev : Event F) (evs : list (Event F))
  (row : Element F).

Lemma mouseenter_image row src s :
  data_img row = Some src →
  attributes (hoverImg (mouseenter row s)) !! "src" = Some src
  ∧ animating (mouseenter row s) = true
  ∧ "active" ∈ classList (hoverContainer (mouseenter row s))
  ∧ target (mouseenter row s) = target s.
Proof.
  intros Hsrc. unfold mouseenter. rewrite Hsrc.
  match goal with |- context [animate ?t] =>
    destruct (animate_keeps t) as (Ht & Ha & Hc & Hi) end.
  rewrite Hi, Ha, Hc, Ht. cbn. rewrite lookup_insert_eq.
  repeat split; try done. set_solver.
Qed.

Lemma mouseenter_skip row s : data_img row = None → mouseenter row s = s.
Proof. intros Hsrc. unfold mouseenter. by rewrite Hsrc. Qed.

Lemma frame_keeps s :
  target (frame s) = target s
  ∧ animating (frame s) = animating s
  ∧ classList (hoverContainer (frame s)) = classList (hoverContainer s)
  ∧ hoverImg (frame s) = hoverImg s.
Proof. unfold frame. apply (run_callbacks_keeps (frames s) (clear_frames s)). Qed.

Lemma step_active_class s ev :
  (animating s = true ↔ "active" ∈ classList (hoverContainer s)) →
  (animating (step s ev) = true
   ↔ "active" ∈ classList (hoverContainer (step s ev))).
Proof.
  intros Hs. destruct ev as [row | e | | ]; cbn [step].
  - destruct (data_img row) as [src|] eqn:Hsrc.
    + destruct (mouseenter_image row src s Hsrc) as (_ & Ha & Hc & _).
      by rewrite Ha.
    + by rewrite mouseenter_skip.
  - done.
  - cbn. split; [done|]. intros Hin.
    apply elem_of_difference in Hin as [_ Hn].
    exfalso. apply Hn. by apply elem_of_singleton.
  - destruct (frame_keeps s) as (_ & Ha & Hc & _). by rewrite Ha, Hc.
Qed.

Lemma step_keeps_target s ev :
  is_move ev = false → target (step s ev) = target s.
Proof.
  intros Hev. destruct ev as [row | e | | ]; cbn [step]; try done.
  - destruct (data_img row) as [src|] eqn:Hsrc.
    + by destruct (mouseenter_image row src s Hsrc) as (_ & _ & _ & Ht).
    + by rewrite mouseenter_skip.
  - by destruct (frame_keeps s) as (Ht & _).
Qed.

Lemma step_keeps_image s ev :
  activates ev = false → hoverImg (step s ev) = hoverImg s.
Proof.
  intros Hev. destruct ev as [row | e | | ]; cbn [step]; try done.
  - apply activates_false_enter in Hev. by rewrite mouseenter_skip.
  - by destruct (frame_keeps s) as (_ & _ & _ & Hi).
Qed.

End HoverInvariants.

(** X2: the container carries the class [active] exactly while the loop
    is flagged active.  If that holds at some point (it does after the
    setup when the markup does not carry the class), it holds after every
    sequence of events. *)
Theorem active_class_follows_flag :
  ∀ (F : Type) (N : Number F) (s : HoverState F) (evs : list (Event F)),
    (animating s = true ↔ "active" ∈ classList (hoverContainer s)) →
    (animating (run evs s) = true
     ↔ "active" ∈ classList (hoverContainer (run evs s))).
Proof.
  intros F N s evs. revert s.
  induction evs as [|ev evs IH]; intros s Hs; [done|].
  change (run (ev :: evs) s) with (run evs (step s ev)).
  apply IH. by apply step_active_class.
Qed.

Lemma active_class_follows_flag_witness :
  let box : Element float := mkElement (mkRect 0 0 0 0)%float ∅ ∅ ∅ in
  let row : Element float :=
    mkElement (mkRect 0 0 0 0)%float ∅ ∅ {[ "data-img" := "a.jpg" ]} in
  let s := mkHover 0%float 0%float 0%float 0%float false box box 0 in
  animating (run [MouseEnter row; Frame; MouseLeave; Frame] s) = true
  ↔ "active" ∈ classList
       (hoverContainer (run [MouseEnter row; Frame; MouseLeave; Frame] s)).
Proof.
  intros box row s.
  refine (active_class_follows_flag float _ s _ _).
  split; [done | set_solver].
Defined.

(** X3: the follower's target is the position of the most recent
    pointer-move, shifted by (175, 200); entering and leaving rows and
    rendered frames never change it. *)
Theorem latest_pointer_move_wins :
  ∀ (F : Type) (N : Number F) (s : HoverState F) (e : MouseEvent F)
    (before after : list (Event F)),
    Forall (λ ev, is_move ev = false) after →
    target (run (before ++ MouseMove e :: after) s)
      = ((clientX e - num_of_Z 175)%num, (clientY e - num_of_Z 200)%num).
Proof.
  intros F N s e before after Hafter.
  rewrite run_app.
  change (run (MouseMove e :: after) (run before s))
    with (run after (mousemove e (run before s))).
  assert (∀ t, target (run after t) = target t) as Hkeep.
  { induction Hafter as [|ev evs Hev _ IH]; intros t; [done|].
    change (run (ev :: evs) t) with (run evs (step t ev)).
    by rewrite IH, step_keeps_target. }
  by rewrite Hkeep.
Qed.

Lemma latest_pointer_move_wins_witness :
  let box : Element float := mkElement (mkRect 0 0 0 0)%float ∅ ∅ ∅ in
  let s := mkHover 0%float 0%float 0%float 0%float false box box 0 in
  target (run ([MouseMove (mkMouseEvent 1 2)%float]
               ++ MouseMove (mkMouseEvent 475 400)%float
               :: [MouseLeave; Frame]) s)
    = (300, 200)%float.
Proof.
  intros box s.
  refine (latest_pointer_move_wins float _ s (mkMouseEvent 475 400)%float
            [MouseMove (mkMouseEvent 1 2)%float] [MouseLeave; Frame] _).
  repeat constructor.
Defined.

(** X4: the preview image shows the picture of the row entered last among
    the rows that carry one: rows without [data-img], pointer moves,
    leaves and frames keep the image source. *)
Theorem preview_shows_last_image_row :
  ∀ (F : Type) (N : Number F) (s : HoverState F) (row : Element F)
    (src : string) (before after : list (Event F)),
    data_img row = Some src →
    Forall (λ ev, activates ev = false) after →
    attributes (hoverImg (run (before ++ MouseEnter row :: after) s)) !! "src"
      = Some src.
Proof.
  intros F N s row src before after Hsrc Hafter.
  rewrite run_app.
  change (run (MouseEnter row :: after) (run before s))
    with (run after (mouseenter row (run before s))).
  assert (∀ t, hoverImg (run after t) = hoverImg t) as Hkeep.
  { induction Hafter as [|ev evs Hev _ IH]; intros t; [done|].
    change (run (ev :: evs) t) with (run evs (step t ev)).
    by rewrite IH, step_keeps_image. }
  rewrite Hkeep. by destruct (mouseenter_image row src (run before s) Hsrc).
Qed.

Lemma preview_shows_last_image_row_witness :
  let box : Element float := mkElement (mkRect 0 0 0 0)%float ∅ ∅ ∅ in
  let row : Element float :=
    mkElement (mkRect 0 0 0 0)%float ∅ ∅ {[ "data-img" := "a.jpg" ]} in
  let s := mkHover 0%float 0%float 0%float 0%float false box box 0 in
  attributes (hoverImg (run ([] ++ MouseEnter row :: [MouseLeave; MouseEnter box])
                          s)) !! "src"
    = Some "a.jpg".
Proof.
  intros box row s.
  refine (preview_shows_last_image_row float _ s row "a.jpg" []
            [MouseLeave; MouseEnter box] _ _).
  - reflexivity.
  - repeat constructor.
Defined.

(** ** The follower in exact arithmetic, continued *)

Lemma gap_ticks (n : nat) (s : HoverState R) :
  animating s = true →
  (mouseX s - currentX (ticks n s) = (1 - 1 / 10) ^ n * (mouseX s - currentX s))%R
  ∧ (mouseY s - currentY (ticks n s)
     = (1 - 1 / 10) ^ n * (mouseY s - currentY s))%R.
Proof.
  intros Ha. induction n as [|n [IHx IHy]]; [cbn; lra|].
  destruct (ticks_active n s Ha) as [Han Htn]. injection Htn as Hmx Hmy.
  rewrite ticks_succ.
  destruct (animate_active _ Han) as (Hx & Hy & _).
  rewrite Hx, Hy, Hmx, Hmy. cbn. split; nra.
Qed.

(** X5: in exact arithmetic the follower never overshoots: on each axis
    every tick moves it towards the target and leaves it on the same side
    of the target. *)
Theorem follower_never_overshoots :
  ∀ (s : HoverState R) (n : nat),
    animating s = true →
    ((currentX s <= mouseX s →
      currentX (ticks n s) <= currentX (ticks (S n) s) <= mouseX s)
     ∧ (mouseX s <= currentX s →
        mouseX s <= currentX (ticks (S n) s) <= currentX (ticks n s))
     ∧ (currentY s <= mouseY s →
        currentY (ticks n s) <= currentY (ticks (S n) s) <= mouseY s)
     ∧ (mouseY s <= currentY s →
        mouseY s <= currentY (ticks (S n) s) <= currentY (ticks n s)))%R.
Proof.
  intros s n Ha.
  destruct (gap_ticks n s Ha) as [Hx Hy].
  destruct (gap_ticks (S n) s Ha) as [Hx' Hy'].
  assert (0 < (1 - 1 / 10) ^ n)%R as Hp by (apply pow_lt; lra).
  cbn [pow] in Hx', Hy'.
  set (p := ((1 - 1 / 10) ^ n)%R) in *.
  split; [|split; [|split]]; intros Hle; split; nra.
Qed.

Lemma follower_never_overshoots_witness :
  let box : Element R := mkElement (mkRect 0 0 0 0)%R ∅ ∅ ∅ in
  let s := mkHover 300%R 200%R 0%R 0%R true box box 1 in
  (currentX (ticks 3 s) <= currentX (ticks 4 s) <= 300)%R.
Proof.
  intros box s.
  refine (proj1 (follower_never_overshoots s 3 _) _); [reflexivity|].
  cbn. lra.
Defined.

(** X6: in exact arithmetic a rendered frame with k callbacks queued
    shrinks the distance to the target by the factor (1 - 0.1)^k: every
    stacked callback speeds the follower up. *)
Theorem stacked_callbacks_speed_up :
  ∀ s : HoverState R,
    animating s = true →
    lag (frame s) = ((1 - 1 / 10) ^ frames s * lag s)%R.
Proof.
  intros s Ha.
  destruct (frame_active s Ha) as (_ & Hpos & _).
  destruct (frame_keeps s) as (Ht & _).
  destruct (ticks_active (frames s) s Ha) as [_ Htt].
  rewrite <- (lag_ticks (frames s) s Ha).
  unfold lag. by rewrite Hpos, Ht, Htt.
Qed.

Lemma stacked_callbacks_speed_up_witness :
  let box : Element R := mkElement (mkRect 0 0 0 0)%R ∅ ∅ ∅ in
  let s := mkHover 300%R 200%R 0%R 0%R true box box 2 in
  lag (frame s) = ((1 - 1 / 10) ^ 2 * lag s)%R.
Proof.
  intros box s. refine (stacked_callbacks_speed_up s _). reflexivity.
Defined.

Lemma animate_rendered (s : HoverState R) :
  animating s = true →
  style (hoverContainer (animate s)) !! "left"
    = Some (Length (px (currentX (animate s))))
  ∧ style (hoverContainer (animate s)) !! "top"
    = Some (Length (px (currentY (animate s)))).
Proof.
  intros Ha. unfold animate. rewrite Ha. cbn -[set_property]. split.
  - rewrite set_property_other by done. by apply set_property_valid.
  - by apply set_property_valid.
Qed.

Lemma step_rendered (s : HoverState R) (ev : Event R) :
  style (hoverContainer s) !! "left" = Some (Length (px (currentX s)))
  ∧ style (hoverContainer s) !! "top" = Some (Length (px (currentY s))) →
  style (hoverContainer (step s ev)) !! "left"
    = Some (Length (px (currentX (step s ev))))
  ∧ style (hoverContainer (step s ev)) !! "top"
    = Some (Length (px (currentY (step s ev)))).
Proof.
  intros Hs.
  assert (∀ t : HoverState R,
    (style (hoverContainer t) !! "left" = Some (Length (px (currentX t)))
     ∧ style (hoverContainer t) !! "top" = Some (Length (px (currentY t)))) →
    style (hoverContainer (animate t)) !! "left"
      = Some (Length (px (currentX (animate t))))
    ∧ style (hoverContainer (animate t)) !! "top"
      = Some (Length (px (currentY (animate t))))) as Hanim.
  { intros t Ht. destruct (animating t) eqn:Ha.
    - by apply animate_rendered.
    - by rewrite animate_inactive. }
  destruct ev as [row | e | | ]; cbn [step].
  - unfold mouseenter. destruct (data_img row); [|done]. by apply Hanim.
  - done.
  - done.
  - unfold frame, run_callbacks.
    induction (frames s) as [|k IH]; [done|].
    rewrite Nat.iter_succ. by apply Hanim.
Qed.

(** X7: in exact arithmetic, once a row carrying an image has been
    entered, the container's inline [left] and [top] are the follower's
    tracked position in pixels, after every later event. *)
Theorem rendered_position_is_tracked_position :
  ∀ (s : HoverState R) (row : Element R) (evs : list (Event R)),
    is_Some (data_img row) →
    let s' := run (MouseEnter row :: evs) s in
    style (hoverContainer s') !! "left" = Some (Length (px (currentX s')))
    ∧ style (hoverContainer s') !! "top" = Some (Length (px (currentY s'))).
Proof.
  intros s row evs [src Hsrc] s'. unfold s'.
  change (run (MouseEnter row :: evs) s) with (run evs (mouseenter row s)).
  assert (style (hoverContainer (mouseenter row s)) !! "left"
            = Some (Length (px (currentX (mouseenter row s))))
          ∧ style (hoverContainer (mouseenter row s)) !! "top"
            = Some (Length (px (currentY (mouseenter row s))))) as Hstart.
  { unfold mouseenter. rewrite Hsrc. by apply animate_rendered. }
  revert Hstart. generalize (mouseenter row s). clear.
  induction evs as [|ev evs IH]; intros t Ht; [done|].
  change (run (ev :: evs) t) with (run evs (step t ev)).
  apply IH. by apply step_rendered.
Qed.

Lemma rendered_position_is_tracked_position_witness :
  let box : Element R := mkElement (mkRect 0 0 0 0)%R ∅ ∅ ∅ in
  let row : Element R :=
    mkElement (mkRect 0 0 0 0)%R ∅ ∅ {[ "data-img" := "a.jpg" ]} in
  let s := mkHover 0%R 0%R 0%R 0%R false box box 0 in
  let s' := run [MouseEnter row; MouseMove (mkMouseEvent 475 400)%R; Frame] s in
  style (hoverContainer s') !! "left" = Some (Length (px (currentX s'))).
Proof.
  intros box row s.
  refine (proj1 (rendered_position_is_tracked_position s row
            [MouseMove (mkMouseEvent 475 400)%R; Frame] _)).
  by eexists.
Defined.

(** * Properties of the navigation panel *)

Lemma toggle_elem (c : string) (cl : gset string) :
  c ∈ classList_toggle c cl ↔ c ∉ cl.
Proof.
  unfold classList_toggle. destruct (decide (c ∈ cl)) as [Hin|Hout].
  - rewrite elem_of_difference, elem_of_singleton. intuition congruence.
  - rewrite elem_of_union, elem_of_singleton. intuition congruence.
Qed.

Lemma toggle_other (c d : string) (cl : gset string) :
  d ≠ c → d ∈ classList_toggle c cl ↔ d ∈ cl.
Proof.
  intros Hd. unfold classList_toggle. destruct (decide (c ∈ cl)).
  - rewrite elem_of_difference, elem_of_singleton. intuition congruence.
  - rewrite elem_of_union, elem_of_singleton. intuition congruence.
Qed.

Lemma toggle_toggle (c : string) (cl : gset string) :
  classList_toggle c (classList_toggle c cl) = cl.
Proof.
  apply set_eq. intros d. destruct (decide (d = c)) as [->|Hd].
  - rewrite !toggle_elem. destruct (decide (c ∈ cl)); intuition congruence.
  - by rewrite !toggle_other.
Qed.

Lemma clicks_snoc (cs : list Click) (c : Click) (m : MenuState) :
  clicks (cs ++ [c]) m = click (clicks cs m) c.
Proof. unfold clicks. by rewrite foldl_app. Qed.

Lemma click_in_sync (m : MenuState) (c : Click) :
  menu_in_sync m → menu_in_sync (click m c).
Proof.
  unfold menu_in_sync. intros Hm. destruct c; cbn.
  - rewrite !toggle_elem. intuition congruence.
  - rewrite !toggle_elem. intuition congruence.
  - rewrite !elem_of_difference, !elem_of_singleton. intuition congruence.
Qed.

(** X8: the panel and its overlay open and close together.  If both carry
    the class [active] or neither does, this is still so after any
    sequence of clicks on the button, the overlay and the links. *)
Theorem menu_stays_in_sync :
  ∀ (m : MenuState) (cs : list Click),
    menu_in_sync m → menu_in_sync (clicks cs m).
Proof.
  intros m cs Hm. induction cs as [|c cs IH] using rev_ind; [done|].
  rewrite clicks_snoc. by apply click_in_sync.
Qed.

Lemma menu_stays_in_sync_witness :
  menu_in_sync
    (clicks [ClickHamburger; ClickOverlay; ClickHamburger; ClickNavLink]
       (mkMenu {["fixed-nav"]} {["fixed-nav-overlay"]} [])).
Proof.
  refine (menu_stays_in_sync _ _ _).
  unfold menu_in_sync. cbn. rewrite !elem_of_singleton. split; discriminate.
Defined.

(** X9: a toggle never repairs a mismatch.  If exactly one of the panel
    and the overlay carries [active], then after any number of clicks on
    the button or the overlay exactly one of them still does; a click on
    a link of the panel closes both, whatever the state was. *)
Theorem toggles_keep_mismatch :
  ∀ (m : MenuState) (cs : list Click),
    ¬ menu_in_sync m →
    Forall (λ c, is_toggle c = true) cs →
    (¬ menu_in_sync (clicks cs m))
    ∧ ("active" ∉ nav_classes (click (clicks cs m) ClickNavLink))
    ∧ ("active" ∉ overlay_classes (click (clicks cs m) ClickNavLink)).
Proof.
  intros m cs Hm Hcs. split.
  - induction cs as [|c cs IH] using rev_ind; [done|].
    apply Forall_app in Hcs as [Hcs Hc]. apply Forall_inv in Hc.
    specialize (IH Hcs).
    rewrite clicks_snoc. unfold menu_in_sync in *.
    destruct c; cbn in Hc; try discriminate Hc; cbn; rewrite !toggle_elem;
      intros Hsync; apply IH;
      destruct (decide ("active" ∈ nav_classes (clicks cs m)));
      destruct (decide ("active" ∈ overlay_classes (clicks cs m)));
      tauto.
  - cbn. rewrite !elem_of_difference, !elem_of_singleton. intuition congruence.
Qed.

Lemma toggles_keep_mismatch_witness :
  ¬ menu_in_sync
      (clicks [ClickHamburger; ClickOverlay; ClickHamburger]
         (mkMenu {["active"]} ∅ [])).
Proof.
  refine (proj1 (toggles_keep_mismatch (mkMenu {["active"]} ∅ [])
            [ClickHamburger; ClickOverlay; ClickHamburger] _ _)).
  - unfold menu_in_sync. cbn. intros [Hin _].
    specialize (Hin (proj2 (elem_of_singleton _ _) eq_refl)).
    by apply not_elem_of_empty in Hin.
  - repeat constructor.
Defined.

Lemma parity_step (n : nat) :
  (n mod 2 = 1 ∧ (n + 1) mod 2 = 0 ∧ (n + 1 + 1) / 2 = (n + 1) / 2)
  ∨ (n mod 2 = 0 ∧ (n + 1) mod 2 = 1
     ∧ (n + 1 + 1) / 2 = S ((n + 1) / 2)).
Proof.
  pose proof (Nat.div_mod_eq n 2) as H0.
  pose proof (Nat.mod_upper_bound n 2 ltac:(lia)) as B0.
  pose proof (Nat.div_mod_eq (n + 1) 2) as H1.
  pose proof (Nat.mod_upper_bound (n + 1) 2 ltac:(lia)) as B1.
  pose proof (Nat.div_mod_eq (n + 1 + 1) 2) as H2.
  pose proof (Nat.mod_upper_bound (n + 1 + 1) 2 ltac:(lia)) as B2.
  lia.
Qed.

(** X10: starting with the panel closed, after n clicks on the button or
    the overlay the panel is open exactly when n is odd, and the entry
    tweens of the links have been started once per opening, so
    (n + 1) / 2 times, and never on closing. *)
Theorem entry_tweens_once_per_opening :
  ∀ (m : MenuState) (cs : list Click),
    ¬ menu_open m →
    Forall (λ c, is_toggle c = true) cs →
    (menu_open (clicks cs m) ↔ length cs mod 2 = 1)
    ∧ tweens (clicks cs m)
      = tweens m
        ++ concat (replicate ((length cs + 1) / 2)
                     [".fixed-nav-links a"; ".fixed-nav-socials a"]).
Proof.
  intros m cs Hm Hcs. unfold menu_open in *.
  induction cs as [|c cs IH] using rev_ind.
  - cbn. split; [split; [done | lia] | by rewrite app_nil_r].
  - apply Forall_app in Hcs as [Hcs Hc]. apply Forall_inv in Hc.
    destruct (IH Hcs) as [IHo IHt]. clear IH.
    rewrite clicks_snoc, length_app. cbn [length].
    assert (click (clicks cs m) c = toggleMenu (clicks cs m)) as ->
      by (destruct c; [done | done | discriminate Hc]).
    unfold toggleMenu. cbn [nav_classes tweens]. rewrite toggle_elem.
    destruct (decide ("active" ∈ nav_classes (clicks cs m))) as [Hin|Hout].
    + rewrite bool_decide_eq_true_2 by done.
      assert (length cs mod 2 = 1) as Hodd by tauto.
      destruct (parity_step (length cs)) as [(_ & Hm1 & Hd)|(Hm0 & _)];
        [|lia].
      split; [split; [tauto | intros ?; exfalso; lia]|].
      by rewrite IHt, Hd.
    + rewrite bool_decide_eq_false_2 by done.
      assert (length cs mod 2 ≠ 1) as Heven by tauto.
      destruct (parity_step (length cs)) as [(Hm1 & _)|(_ & Hm1 & Hd)];
        [done|].
      split; [split; [intros _; lia | done]|].
      rewrite IHt, <- app_assoc, Hd. f_equal.
      by rewrite replicate_S_end, concat_app.
Qed.

Lemma entry_tweens_once_per_opening_witness :
  tweens (clicks [ClickHamburger; ClickOverlay; ClickHamburger]
            (mkMenu ∅ ∅ []))
    = [] ++ concat (replicate 2 [".fixed-nav-links a"; ".fixed-nav-socials a"]).
Proof.
  refine (proj2 (entry_tweens_once_per_opening (mkMenu ∅ ∅ [])
            [ClickHamburger; ClickOverlay; ClickHamburger] _ _)).
  - unfold menu_open. cbn. apply not_elem_of_empty.
  - repeat constructor.
Defined.

(** X11: clicks touch no class but [active]: every other class of the
    panel and of the overlay is kept by any sequence of clicks; and two
    toggles in a row give both class lists back exactly. *)
Theorem clicks_touch_only_active :
  ∀ (m : MenuState) (cs : list Click) (c : string),
    c ≠ "active" →
    (c ∈ nav_classes (clicks cs m) ↔ c ∈ nav_classes m)
    ∧ (c ∈ overlay_classes (clicks cs m) ↔ c ∈ overlay_classes m)
    ∧ nav_classes (toggleMenu (toggleMenu m)) = nav_classes m
    ∧ overlay_classes (toggleMenu (toggleMenu m)) = overlay_classes m.
Proof.
  intros m cs c Hc.
  assert ((c ∈ nav_classes (clicks cs m) ↔ c ∈ nav_classes m)
          ∧ (c ∈ overlay_classes (clicks cs m) ↔ c ∈ overlay_classes m))
    as [Hn Ho].
  { induction cs as [|k cs [IHn IHo]] using rev_ind; [done|].
    rewrite clicks_snoc, <- IHn, <- IHo.
    destruct k; cbn; rewrite ?toggle_other by done;
      rewrite ?elem_of_difference, ?elem_of_singleton; tauto. }
  split; [done|]. split; [done|]. cbn. by rewrite !toggle_toggle.
Qed.

Lemma clicks_touch_only_active_witness :
  "fixed-nav" ∈ nav_classes
    (clicks [ClickHamburger; ClickNavLink] (mkMenu {["fixed-nav"]} ∅ []))
  ↔ "fixed-nav" ∈ nav_classes (mkMenu {["fixed-nav"]} ∅ []).
Proof.
  refine (proj1 (clicks_touch_only_active (mkMenu {["fixed-nav"]} ∅ [])
            [ClickHamburger; ClickNavLink] "fixed-nav" _)).
  discriminate.
Defined.

(** * Properties of the marquee *)

Lemma Qtrunc_bounds (q : Q) :
  ((0 <= q → inject_Z (Qtrunc q) <= q ∧ q < inject_Z (Qtrunc q) + 1)
   ∧ (q < 0 → inject_Z (Qtrunc q) - 1 < q ∧ q <= inject_Z (Qtrunc q)))%Q.
Proof.
  unfold Qtrunc. destruct (Qle_bool 0 q) eqn:Hq.
  - apply Qle_bool_iff in Hq. split; [|intros Hneg; Lqa.lra].
    intros _. split; [apply Qfloor_le|].
    pose proof (Qlt_floor q) as Hlt. rewrite inject_Z_plus in Hlt. exact Hlt.
  - assert (q < 0)%Q as Hneg.
    { apply Qnot_le_lt. intros Hle. apply Qle_bool_iff in Hle. congruence. }
    split; [intros Hpos; Lqa.lra|]. intros _. split; [|apply Qle_ceiling].
    pose proof (Qceiling_lt q) as Hlt.
    unfold Z.sub in Hlt. rewrite inject_Z_plus in Hlt. exact Hlt.
Qed.

(** The remainder is smaller than the divisor, on either side of zero. *)
Lemma js_rem_bounds (x w : Q) :
  (0 < w → - w < js_rem x w ∧ js_rem x w < w)%Q.
Proof.
  intros Hw. unfold js_rem.
  assert (w * (x / w) == x)%Q as Hx by (apply Qmult_div_r; Lqa.lra).
  destruct (Qtrunc_bounds (x / w)) as [Hpos Hneg].
  set (q := (x / w)%Q) in *. set (t := inject_Z (Qtrunc q)) in *.
  destruct (Qlt_le_dec q 0) as [Hq|Hq].
  - destruct (Hneg Hq) as [H1 H2]. split; Lqa.nra.
  - destruct (Hpos Hq) as [H1 H2]. split; Lqa.nra.
Qed.

Lemma marquee_x_congruent (w x : Q) :
  ∃ k : Z, (marquee_x w x == x - inject_Z k * w)%Q.
Proof.
  unfold marquee_x, js_rem.
  destruct (Qlt_le_dec 0 _) as [Hpos|Hneg].
  - exists (Qtrunc (x / w) + 1)%Z. rewrite inject_Z_plus. ring.
  - exists (Qtrunc (x / w)). ring.
Qed.

Lemma marquee_x_in_range (w x : Q) :
  (0 < w → - w < marquee_x w x ∧ marquee_x w x <= 0)%Q.
Proof.
  intros Hw. destruct (js_rem_bounds x w Hw) as [Hlo Hhi].
  unfold marquee_x. destruct (Qlt_le_dec 0 (js_rem x w)); split; Lqa.lra.
Qed.

(** Two offsets in (-w, 0] that differ by a whole number of widths are
    equal. *)
Lemma marquee_x_unique (w x y : Q) (k : Z) :
  (0 < w → - w < y ∧ y <= 0 → y == x - inject_Z k * w →
   marquee_x w x == y)%Q.
Proof.
  intros Hw [Hlo Hhi] Hy.
  destruct (marquee_x_in_range w x Hw) as [Mlo Mhi].
  destruct (marquee_x_congruent w x) as [k0 Hk0].
  assert (inject_Z (k0 - k) * w == y - marquee_x w x)%Q as Hd.
  { unfold Z.sub. rewrite inject_Z_plus, inject_Z_opp, Hy, Hk0. ring. }
  assert (-1 < inject_Z (k0 - k) ∧ inject_Z (k0 - k) < 1)%Q as [Hk1 Hk2]
    by (split; Lqa.nra).
  assert (k0 - k = 0)%Z as Hz.
  { change (-1)%Q with (inject_Z (-1)) in Hk1.
    change 1%Q with (inject_Z 1) in Hk2.
    rewrite <- Zlt_Qlt in Hk1, Hk2. lia. }
  rewrite Hz in Hd. change (inject_Z 0) with 0%Q in Hd. Lqa.lra.
Qed.

(** X12: in exact arithmetic and for a positive set width w, the marquee
    modifier maps every tween value x to an offset in (-w, 0] that differs
    from x by a whole number of set widths: the strip is never shifted to
    the right, nor by a full set width or more to the left. *)
Theorem marquee_offset_within_one_set :
  ∀ w x : Q,
    (0 < w)%Q →
    (- w < marquee_x w x)%Q ∧ (marquee_x w x <= 0)%Q
    ∧ ∃ k : Z, (marquee_x w x == x - inject_Z k * w)%Q.
Proof.
  intros w x Hw. destruct (marquee_x_in_range w x Hw) as [Hlo Hhi].
  split; [done|]. split; [done|]. apply marquee_x_congruent.
Qed.

Lemma marquee_offset_within_one_set_witness :
  (- (300 # 1) < marquee_x (300 # 1) (725 # 2))%Q.
Proof.
  refine (proj1 (marquee_offset_within_one_set (300 # 1) (725 # 2) _)).
  reflexivity.
Defined.

(** X13: within one cycle of the tween, from 0 down to but excluding -w,
    the modifier changes nothing. *)
Theorem marquee_identity_within_cycle :
  ∀ w x : Q,
    (0 < w)%Q → (- w < x)%Q → (x <= 0)%Q → (marquee_x w x == x)%Q.
Proof.
  intros w x Hw Hlo Hhi.
  apply (marquee_x_unique w x x 0); [done | done |].
  change (inject_Z 0) with 0%Q. ring.
Qed.

Lemma marquee_identity_within_cycle_witness :
  (marquee_x (300 # 1) (- (125 # 2)) == - (125 # 2))%Q.
Proof.
  refine (marquee_identity_within_cycle (300 # 1) (- (125 # 2)) _ _ _);
    [reflexivity | reflexivity | discriminate].
Defined.

(** X14: the modifier is periodic in the set width: tween values a whole
    number of set widths apart give the same offset, which is what makes
    the three copies loop without a jump. *)
Theorem marquee_periodic :
  ∀ (w x : Q) (k : Z),
    (0 < w)%Q →
    (marquee_x w (x + inject_Z k * w) == marquee_x w x)%Q.
Proof.
  intros w x k Hw.
  destruct (marquee_x_congruent w x) as [k0 Hk0].
  apply (marquee_x_unique w _ _ (k0 + k)).
  - done.
  - by apply marquee_x_in_range.
  - rewrite Hk0, inject_Z_plus. ring.
Qed.

Lemma marquee_periodic_witness :
  (marquee_x (300 # 1) ((- (125 # 2)) + inject_Z (-4) * (300 # 1))
   == marquee_x (300 # 1) (- (125 # 2)))%Q.
Proof.
  refine (marquee_periodic (300 # 1) (- (125 # 2)) (-4) _). reflexivity.
Defined.

Lemma spansPerSet_rounds_tripled (n : nat) :
  spansPerSet_rounds (n + n + n) = n.
Proof.
  unfold spansPerSet_rounds. symmetry.
  apply (Nat.div_unique (n + n + n + 2) 3 n 2); lia.
Qed.

Lemma sum_first_widths (l rest : list Z) (acc : Z) :
  foldl (λ a i, a + default 0 ((l ++ rest) !! i))%Z acc (seq 0 (length l))
    = (acc + foldr Z.add 0 l)%Z.
Proof.
  revert rest. induction l as [|w l IH] using rev_ind; intros rest.
  - cbn. lia.
  - rewrite length_app. cbn [length]. rewrite seq_app, foldl_app. cbn [seq foldl].
    rewrite <- app_assoc. rewrite IH.
    rewrite lookup_app_r by lia. rewrite Nat.sub_diag. cbn.
    rewrite foldr_app. cbn.
    assert (∀ (a b : Z) (m : list Z),
              foldr Z.add (a + b) m = (foldr Z.add b m + a))%Z as Hshift.
    { intros a b m. induction m as [|c m IHm]; cbn; lia. }
    rewrite (Hshift w 0%Z l). lia.
Qed.

(** X15: when the three copies of the marquee content lay out alike (the
    span widths are one list repeated three times), the loop measures
    exactly one copy: [singleSetWidth] is the sum of the widths of the
    original spans, a third of the total width. *)
Theorem single_set_width_is_one_copy :
  ∀ widths : list Z,
    singleSetWidth (widths ++ widths ++ widths) = foldr Z.add 0%Z widths
    ∧ foldr Z.add 0%Z (widths ++ widths ++ widths)
      = (3 * singleSetWidth (widths ++ widths ++ widths))%Z.
Proof.
  intros widths.
  assert (singleSetWidth (widths ++ widths ++ widths)
          = foldr Z.add 0%Z widths) as Hone.
  { unfold singleSetWidth. rewrite !length_app.
    rewrite Nat.add_assoc, spansPerSet_rounds_tripled.
    rewrite sum_first_widths. lia. }
  split; [done|]. rewrite Hone.
  assert (∀ a b : list Z,
            foldr Z.add 0%Z (a ++ b)
            = (foldr Z.add 0 a + foldr Z.add 0 b)%Z) as Happ.
  { intros a b. induction a as [|c a IHa]; cbn; lia. }
  rewrite !Happ. lia.
Qed.

(** * Properties of the controllers' life cycle *)

Section ListenerFacts.
Context {F : Type} `{Number F}.
Implicit Types (pg : Page F) (ls : gmap nat (list (string * nat)))
  (e : MouseEvent F) (doc : gmap nat (Element F)).

Lemma add_lookup_same ls node type fn :
  default [] (addEventListener node type fn ls !! node)
    = if decide ((type, fn) ∈ default [] (ls !! node))
      then default [] (ls !! node)
      else default [] (ls !! node) ++ [(type, fn)].
Proof.
  unfold addEventListener. destruct (decide _); [done|].
  by rewrite lookup_insert_eq.
Qed.

Lemma add_lookup_other ls node type fn n :
  n ≠ node →
  default [] (addEventListener node type fn ls !! n) = default [] (ls !! n).
Proof.
  intros Hn. unfold addEventListener. destruct (decide _); [done|].
  by rewrite lookup_insert_ne.
Qed.

Lemma remove_lookup_same ls node type fn :
  default [] (removeEventListener node type fn ls !! node)
    = filter (λ l, l ≠ (type, fn)) (default [] (ls !! node)).
Proof.
  unfold removeEventListener. destruct (ls !! node) as [cur|] eqn:Hcur.
  - by rewrite lookup_insert_eq.
  - by rewrite Hcur.
Qed.

Lemma remove_lookup_other ls node type fn n :
  n ≠ node →
  default [] (removeEventListener node type fn ls !! n) = default [] (ls !! n).
Proof.
  intros Hn. unfold removeEventListener. destruct (ls !! node); [|done].
  by rewrite lookup_insert_ne.
Qed.

Lemma new_controller_listeners el pg :
  listeners_bound pg →
  node_listeners el (new_controller el pg).2
    = node_listeners el pg
      ++ [("mousemove", length (functions pg));
          ("mouseleave", S (length (functions pg)))]
  ∧ ∀ node, node ≠ el →
      node_listeners node (new_controller el pg).2 = node_listeners node pg.
Proof.
  intros Hb. unfold node_listeners, new_controller. cbn [snd listeners]. split.
  - rewrite add_lookup_same, add_lookup_same.
    destruct (decide (("mousemove", length (functions pg))
                      ∈ default [] (listeners pg !! el))) as [Hin|_].
    { apply (Hb el) in Hin. cbn in Hin. lia. }
    destruct (decide _) as [Hin|_]; [|by rewrite <- app_assoc].
    apply elem_of_app in Hin as [Hin|Hin].
    + apply (Hb el) in Hin. cbn in Hin. lia.
    + apply list_elem_of_singleton in Hin. discriminate Hin.
  - intros node Hn. by rewrite !add_lookup_other.
Qed.

Lemma new_controller_bound el pg :
  listeners_bound pg → listeners_bound (new_controller el pg).2.
Proof.
  intros Hb node l Hl.
  destruct (new_controller_listeners el pg Hb) as [Hsame Hother].
  assert (length (functions (new_controller el pg).2)
          = S (S (length (functions pg)))) as ->
    by (cbn; rewrite length_app; cbn; lia).
  destruct (decide (node = el)) as [->|Hn].
  - rewrite Hsame in Hl. apply elem_of_app in Hl as [Hl|Hl].
    + apply Hb in Hl. lia.
    + apply elem_of_cons in Hl as [->|Hl]; [cbn; lia|].
      apply list_elem_of_singleton in Hl as ->. cbn. lia.
  - rewrite Hother in Hl by done. apply Hb in Hl. lia.
Qed.

Lemma foldl_run_listener_ext (fs gs : list (BoundFunction F)) type e
    (L : list (string * nat)) doc :
  (∀ l, l ∈ L → fs !! l.2 = gs !! l.2) →
  foldl (run_listener fs type e) doc L = foldl (run_listener gs type e) doc L.
Proof.
  revert doc. induction L as [|l L IH]; intros doc Hfg; [done|].
  cbn [foldl].
  assert (run_listener fs type e doc l = run_listener gs type e doc l) as ->.
  { unfold run_listener. rewrite (Hfg l) by apply list_elem_of_here. done. }
  apply IH. intros l' Hl'. apply Hfg. by apply list_elem_of_further.
Qed.

(** The listeners registered before a new controller see the functions
    they were registered with. *)
Lemma dispatch_old_listeners el pg node type e :
  listeners_bound pg →
  foldl (run_listener (functions (new_controller el pg).2) type e)
    (document pg) (node_listeners node pg)
    = dispatchEvent node type e pg.
Proof.
  intros Hb. unfold dispatchEvent. apply foldl_run_listener_ext.
  intros l Hl. apply Hb in Hl. cbn. by rewrite lookup_app_l.
Qed.

Lemma dispatch_new_controller el pg node (m : method) e :
  listeners_bound pg →
  dispatchEvent node (event_type m) e (new_controller el pg).2
    = if decide (node = el)
      then call (mkBound (new_MagneticButton el) m) e
             (dispatchEvent node (event_type m) e pg)
      else dispatchEvent node (event_type m) e pg.
Proof.
  intros Hb. destruct (new_controller_listeners el pg Hb) as [Hsame Hother].
  unfold dispatchEvent at 1.
  change (document (new_controller el pg).2) with (document pg).
  destruct (decide (node = el)) as [->|Hn].
  - rewrite Hsame, foldl_app, dispatch_old_listeners by done.
    assert (functions (new_controller el pg).2 !! length (functions pg)
            = Some (mkBound (new_MagneticButton el) mouseMove)) as Hmove.
    { cbn. rewrite lookup_app_r by lia. by rewrite Nat.sub_diag. }
    assert (functions (new_controller el pg).2 !! S (length (functions pg))
            = Some (mkBound (new_MagneticButton el) mouseLeave)) as Hleave.
    { cbn. rewrite lookup_app_r by lia.
      by replace (S (length (functions pg)) - length (functions pg))
        with 1 by lia. }
    cbn [foldl]. unfold run_listener. cbn [fst snd].
    rewrite Hmove, Hleave.
    destruct m; cbn [event_type].
    + rewrite (decide_False (P := "mouseleave" = "mousemove")) by done.
      by rewrite decide_True.
    + rewrite (decide_False (P := "mousemove" = "mouseleave")) by done.
      by rewrite decide_True.
  - rewrite Hother by done. by apply dispatch_old_listeners.
Qed.

End ListenerFacts.

Section ControllerFacts.
Context {F : Type} `{Number F}.
Implicit Types (pg : Page F) (e : MouseEvent F).

Lemma filter_keeps_all {A : Type} (P : A → Prop) `{∀ x, Decision (P x)}
    (l : list A) :
  (∀ x, x ∈ l → P x) → filter P l = l.
Proof.
  induction l as [|x l IH]; intros Hall; [done|].
  rewrite filter_cons_True by (apply Hall, list_elem_of_here).
  f_equal. apply IH. intros y Hy. apply Hall. by apply list_elem_of_further.
Qed.

Lemma destroy_listeners (nid : nat) pg node :
  listeners_bound pg →
  node_listeners node
    (destroy (new_controller nid pg).1 (new_controller nid pg).2)
    = node_listeners node pg.
Proof.
  intros Hb. destruct (new_controller_listeners nid pg Hb) as [Hsame Hother].
  unfold node_listeners in *. unfold destroy.
  change (el (this_button (new_controller nid pg).1)) with nid.
  change (bound_mouseMove (new_controller nid pg).1)
    with (length (functions pg)).
  change (bound_mouseLeave (new_controller nid pg).1)
    with (S (length (functions pg))).
  cbn [listeners].
  destruct (decide (node = nid)) as [->|Hn].
  - rewrite !remove_lookup_same, Hsame, !filter_app.
    rewrite (filter_keeps_all (λ l, l ≠ ("mousemove", length (functions pg)))).
    2:{ intros l Hl ->. apply (Hb nid) in Hl. cbn in Hl. lia. }
    rewrite (filter_keeps_all
               (λ l, l ≠ ("mouseleave", S (length (functions pg))))).
    2:{ intros l Hl ->. apply (Hb nid) in Hl. cbn in Hl. lia. }
    rewrite filter_cons_False by (intros Hne; by apply Hne).
    rewrite filter_cons_True by done. rewrite filter_nil.
    rewrite filter_cons_False by (intros Hne; by apply Hne).
    rewrite filter_nil. by rewrite app_nil_r.
  - rewrite !remove_lookup_other by done. by apply Hother.
Qed.

Lemma query_elem (c : string) (doc : gmap nat (Element F)) (node : nat) :
  node ∈ querySelectorAll_class c doc
  ↔ ∃ elem, doc !! node = Some elem ∧ c ∈ classList elem.
Proof.
  unfold querySelectorAll_class. rewrite list_elem_of_fmap. split.
  - intros [[k v] [-> Hkv]]. apply elem_of_map_to_list in Hkv.
    apply map_lookup_filter_Some in Hkv as [Hk Hc]. by exists v.
  - intros [elem [Hk Hc]]. exists (node, elem). split; [done|].
    apply elem_of_map_to_list. by apply map_lookup_filter_Some.
Qed.

Lemma fold_controllers (L : list nat) pg :
  NoDup L → listeners_bound pg →
  let pg' := foldl (λ pg el, (new_controller el pg).2) pg L in
  document pg' = document pg
  ∧ listeners_bound pg'
  ∧ (∀ node, node ∉ L → node_listeners node pg' = node_listeners node pg)
  ∧ ∀ node (m : method) e,
      dispatchEvent node (event_type m) e pg'
        = if decide (node ∈ L)
          then call (mkBound (new_MagneticButton node) m) e
                 (dispatchEvent node (event_type m) e pg)
          else dispatchEvent node (event_type m) e pg.
Proof.
  intros HL. revert pg. induction HL as [|nid L Hel HL IH]; intros pg Hb.
  - cbn. by repeat split.
  - cbn [foldl].
    destruct (IH _ (new_controller_bound nid pg Hb))
      as (Hdoc & Hb' & Hls & Hd).
    split; [by rewrite Hdoc|]. split; [done|]. split.
    { intros node Hnode. apply not_elem_of_cons in Hnode as [Hne Hnode].
      rewrite Hls by done.
      by apply (new_controller_listeners nid pg Hb). }
    intros node m e. rewrite Hd, !dispatch_new_controller by done.
    destruct (decide (node ∈ L)) as [Hin|Hout].
    + rewrite decide_False by (intros ->; done).
      rewrite decide_True; [done | by apply list_elem_of_further].
    + destruct (decide (node = nid)) as [->|Hn].
      * rewrite decide_True; [done | apply list_elem_of_here].
      * rewrite decide_False; [done|].
        intros Hin. apply elem_of_cons in Hin as [?|?]; done.
Qed.

(** What [initMagnetic()] registers, node by node. *)
Lemma initMagnetic_listeners pg :
  listeners_bound pg →
  document (initMagnetic pg) = document pg
  ∧ listeners_bound (initMagnetic pg)
  ∧ (∀ (node : nat) (elem : Element F) e,
       document pg !! node = Some elem → "magnetic" ∈ classList elem →
       dispatchEvent node "mousemove" e (initMagnetic pg)
         = onMouseMove (new_MagneticButton node) e
             (dispatchEvent node "mousemove" e pg)
       ∧ dispatchEvent node "mouseleave" e (initMagnetic pg)
         = onMouseLeave (new_MagneticButton node)
             (dispatchEvent node "mouseleave" e pg))
  ∧ (∀ node : nat,
       (∀ elem, document pg !! node = Some elem →
                "magnetic" ∉ classList elem) →
       node_listeners node (initMagnetic pg) = node_listeners node pg).
Proof.
  intros Hb. unfold initMagnetic.
  destruct (fold_controllers (querySelectorAll_class "magnetic" (document pg))
              pg) as (Hdoc & Hb' & Hls & Hd); [|done|].
  { unfold querySelectorAll_class. apply NoDup_fst_map_to_list. }
  split; [done|]. split; [done|]. split.
  - intros node elem e Hnode Hc.
    assert (node ∈ querySelectorAll_class "magnetic" (document pg)) as Hin
      by (apply query_elem; eauto).
    pose proof (Hd node mouseMove e) as Hm.
    pose proof (Hd node mouseLeave e) as Hl.
    rewrite decide_True in Hm, Hl by done. by split.
  - intros node Hnot. apply Hls.
    intros Hin. apply query_elem in Hin as (elem & Hnode & Hc).
    by apply (Hnot elem).
Qed.

End ControllerFacts.

(** X16: tearing a controller down undoes its construction.  [destroy()]
    removes exactly the two listeners the constructor registered: every
    node has the listener list it had before, the document is untouched,
    and every event is handled as before the controller existed. *)
Theorem destroy_undoes_constructor :
  ∀ (F : Type) (N : Number F) (el : nat) (pg : Page F),
    listeners_bound pg →
    let c := (new_controller el pg).1 in
    let pg' := destroy c (new_controller el pg).2 in
    (∀ node : nat, node_listeners node pg' = node_listeners node pg)
    ∧ document pg' = document pg
    ∧ ∀ (node : nat) (type : string) (e : MouseEvent F),
        dispatchEvent node type e pg' = dispatchEvent node type e pg.
Proof.
  intros F N el pg Hb c pg'.
  assert (∀ node, node_listeners node pg' = node_listeners node pg) as Hl
    by (intros node; by apply destroy_listeners).
  split; [done|]. split; [done|].
  intros node type e. unfold dispatchEvent. rewrite Hl.
  change (document pg') with (document pg).
  apply foldl_run_listener_ext.
  intros l Hin. apply Hb in Hin. cbn. by rewrite lookup_app_l.
Qed.

Lemma destroy_undoes_constructor_witness :
  let pg : Page float :=
    mkPage {[ 1 := mkElement (mkRect 0 0 200 200)%float ∅ {["magnetic"]} ∅ ]}
      ∅ [] in
  node_listeners 1 (destroy (new_controller 1 pg).1 (new_controller 1 pg).2)
    = node_listeners 1 pg.
Proof.
  intros pg.
  refine (proj1 (destroy_undoes_constructor float _ 1 pg _) 1).
  intros node l Hl. unfold node_listeners in Hl. cbn in Hl.
  rewrite lookup_empty in Hl. by apply elem_of_nil in Hl.
Defined.

(** X17: [initMagnetic()] registers listeners on exactly the nodes that
    carry the class [magnetic].  Afterwards the listeners of such a node,
    run for a pointer-move or a pointer-leave, end with the controller's
    handler, after the listeners the node already had; the listener list
    of every other node is as before; the document itself is not changed
    by the wiring. *)
Theorem initMagnetic_wires_magnetic_nodes :
  ∀ (F : Type) (N : Number F) (pg : Page F),
    listeners_bound pg →
    document (initMagnetic pg) = document pg
    ∧ listeners_bound (initMagnetic pg)
    ∧ (∀ (node : nat) (elem : Element F) (e : MouseEvent F),
         document pg !! node = Some elem → "magnetic" ∈ classList elem →
         dispatchEvent node "mousemove" e (initMagnetic pg)
           = onMouseMove (new_MagneticButton node) e
               (dispatchEvent node "mousemove" e pg)
         ∧ dispatchEvent node "mouseleave" e (initMagnetic pg)
           = onMouseLeave (new_MagneticButton node)
               (dispatchEvent node "mouseleave" e pg))
    ∧ (∀ node : nat,
         (∀ elem, document pg !! node = Some elem →
                  "magnetic" ∉ classList elem) →
         node_listeners node (initMagnetic pg) = node_listeners node pg).
Proof. intros F N pg Hb. by apply initMagnetic_listeners. Qed.

Lemma initMagnetic_wires_magnetic_nodes_witness :
  let button : Element float :=
    mkElement (mkRect 0 0 200 200)%float ∅ {["magnetic"]} ∅ in
  let plain : Element float :=
    mkElement (mkRect 0 300 50 50)%float ∅ {["work-row"]} ∅ in
  let pg : Page float := mkPage (<[ 1 := button ]> {[ 2 := plain ]}) ∅ [] in
  let e : MouseEvent float := mkMouseEvent 150%float 100%float in
  dispatchEvent 1 "mousemove" e (initMagnetic pg)
    = onMouseMove (new_MagneticButton 1) e (document pg)
  ∧ node_listeners 2 (initMagnetic pg) = [].
Proof.
  intros button plain pg e.
  destruct (initMagnetic_wires_magnetic_nodes float _ pg)
    as (_ & _ & Hmag & Hplain).
  { intros node l Hl. unfold node_listeners in Hl. cbn in Hl.
    rewrite lookup_empty in Hl. by apply elem_of_nil in Hl. }
  split.
  - destruct (Hmag 1 button e) as [Hmove _].
    + reflexivity.
    + by apply elem_of_singleton.
    + exact Hmove.
  - rewrite Hplain; [reflexivity|].
    intros elem Hel.
    unfold pg in Hel. cbn [document] in Hel.
    rewrite lookup_insert_ne in Hel by done.
    rewrite lookup_singleton_eq in Hel. injection Hel as <-.
    cbn. intros Hin. by apply elem_of_singleton in Hin.
Defined.



(** X19: the loop cannot stall.  If at some point an active loop has a
    callback queued (as after the setup, where the loop is inactive), then
    after every sequence of events an active loop still has at least one
    callback queued for the next frame. *)
Theorem active_loop_has_a_callback :
  ∀ (F : Type) (N : Number F) (s : HoverState F) (evs : list (Event F)),
    (animating s = true → 1 ≤ frames s) →
    animating (run evs s) = true → 1 ≤ frames (run evs s).
Proof.
  intros F N s evs. revert s.
  induction evs as [|ev evs IH]; intros s Hs; [done|].
  change (run (ev :: evs) s) with (run evs (step s ev)).
  apply IH. clear IH evs. destruct ev as [row | e | | ]; cbn [step].
  - destruct (data_img row) as [src|] eqn:Hsrc.
    + intros _. unfold mouseenter. rewrite Hsrc.
      match goal with |- context [animate ?t] =>
        destruct (animate_active t eq_refl) as (_ & _ & _ & _ & Hf) end.
      rewrite Hf. lia.
    + by rewrite mouseenter_skip.
  - done.
  - done.
  - intros Ha. destruct (frame_keeps s) as (_ & Ha' & _).
    rewrite Ha' in Ha.
    destruct (frame_active s Ha) as (Hf & _).
    rewrite Hf. by apply Hs.
Qed.

Lemma active_loop_has_a_callback_witness :
  let box : Element float := mkElement (mkRect 0 0 0 0)%float ∅ ∅ ∅ in
  let row : Element float :=
    mkElement (mkRect 0 0 0 0)%float ∅ ∅ {[ "data-img" := "a.jpg" ]} in
  let s := mkHover 0%float 0%float 0%float 0%float false box box 0 in
  1 ≤ frames (run [MouseEnter row; Frame; Frame] s).
Proof.
  intros box row s.
  refine (active_loop_has_a_callback float _ s [MouseEnter row; Frame; Frame]
            _ _).
  - discriminate.
  - reflexivity.
Defined.

(** X20: entering a row changes the follower's state exactly when the row
    has a non-empty data-img attribute; a row whose attribute is the empty
    string is skipped like a row without the attribute. *)
Theorem mouseenter_acts_iff_image :
  ∀ (F : Type) (N : Number F) (row : Element F) (s : HoverState F),
    mouseenter row s ≠ s
    ↔ ∃ src : string,
        attributes row !! "data-img" = Some src ∧ src ≠ EmptyString.
Proof.
  intros F N row s. unfold mouseenter, data_img.
  destruct (attributes row !! "data-img") as [src|] eqn:Hattr.
  - destruct (decide (src = EmptyString)) as [->|Hne].
    + split; [done|]. intros (src & Hsrc & Hne). congruence.
    + split; [intros _; by exists src|]. intros _ Heq.
      apply (f_equal frames) in Heq.
      match type of Heq with context [animate ?t] =>
        destruct (animate_active t eq_refl) as (_ & _ & _ & _ & Hf) end.
      rewrite Hf in Heq. cbn in Heq. lia.
  - split; [done|]. intros (src & Hsrc & _). discriminate Hsrc.
Qed.
